(** * AuroraHeart interface: editor sessions, search/replace and terminal tabs

    A shallow embedding of the stateful parts of the React interface:

    - [Js]: the JavaScript built-ins the handlers rely on
      ([substring], [indexOf], [toLowerCase], [slice(-50)], [pop]);
    - [TerminalSession]: the [Terminal] component of [Terminal.jsx]
      (backend id reference, input handler);
    - [TerminalPanel]: the tab list of [Terminal.jsx];
    - [Editor]: the [App] component (tabs, undo/redo stacks, the debounce
      timer, search and replace).

    React state is modelled by explicit state passing: a handler is a
    function from the state of the render it was created in to the state
    after its setters have been applied.  Closures that outlive a render
    (the debounce callback) carry the values they captured. *)

From Stdlib Require Import Ascii String DecimalString Sorted.
From stdpp Require Import base tactics option list numbers strings gmap.

Local Open Scope Z_scope.

(** ** JavaScript built-ins *)

Module Js.

(** A JS string is a sequence of code units.  Code units are modelled by
    [ascii], i.e. the units 0..255; every operation below except
    [toLowerCase] is independent of the unit type. *)
Definition jsstr := list ascii.

Definition js (s : string) : jsstr := list_ascii_of_string s.

(** [Math.min(Math.max(n, 0), len)] as a position of the list. *)
Definition clamp (n : Z) (len : nat) : nat :=
  Z.to_nat (Z.min (Z.max n 0) (Z.of_nat len)).

(** [s.substring(start, end)]: both arguments are clamped to [0, length]
    and swapped when [start > end]. *)
Definition substring (s : jsstr) (start end_ : Z) : jsstr :=
  let fs := clamp start (length s) in
  let fe := clamp end_ (length s) in
  let from := Nat.min fs fe in
  let to := Nat.max fs fe in
  take (to - from)%nat (drop from s).

(** [s.substring(start)]: the end defaults to the length. *)
Definition substringFrom (s : jsstr) (start : Z) : jsstr :=
  substring s start (Z.of_nat (length s)).

(** [s.startsWith(q)], used to define [indexOf]. *)
Fixpoint startsWith (q s : jsstr) : bool :=
  match q, s with
  | [], _ => true
  | _ :: _, [] => false
  | c :: q', d :: s' => Ascii.eqb c d && startsWith q' s'
  end.

(** The scan of [indexOf]: [s] is the text from position [k] on. *)
Fixpoint indexOfFrom (q s : jsstr) (k : nat) : Z :=
  if startsWith q s then Z.of_nat k
  else match s with
       | [] => -1
       | _ :: s' => indexOfFrom q s' (S k)
       end.

(** [s.indexOf(q, position)]: the first index at or after the clamped
    position where [q] occurs, or -1. *)
Definition indexOf (s q : jsstr) (position : Z) : Z :=
  let start := clamp position (length s) in
  indexOfFrom q (drop start s) start.

(** [c.toLowerCase()] on one code unit of the range 0..255: the letters
    A-Z and the Latin-1 capitals U+00C0..U+00DE except the
    multiplication sign U+00D7 move up by 32. *)
Definition lowerUnit (c : ascii) : ascii :=
  let n := nat_of_ascii c in
  if ((65 <=? n) && (n <=? 90))%nat
     || ((192 <=? n) && (n <=? 222) && negb (n =? 215))%nat
  then ascii_of_nat (n + 32) else c.

Definition toLowerCase (s : jsstr) : jsstr := map lowerUnit s.

(** [l.slice(-n)]: the last [n] elements. *)
Definition sliceLast {A} (n : nat) (l : list A) : list A :=
  drop (length l - n)%nat l.

(** [l.pop()] on a copy: the last element and the rest, [None] when the
    array is empty. *)
Definition pop {A} (l : list A) : option (A * list A) :=
  match last l with
  | Some x => Some (x, removelast l)
  | None => None
  end.

(** [l[i]] for a number [i]: [undefined] (here [None]) outside the array. *)
Definition at_ {A} (l : list A) (i : Z) : option A :=
  if 0 <=? i then l !! Z.to_nat i else None.

(** [l[i] = x] for an index inside the array. *)
Definition setAt {A} (l : list A) (i : Z) (x : A) : list A :=
  <[Z.to_nat i := x]> l.

End Js.

Import Js.

(** ** The [Terminal] component (Terminal.jsx) *)

Module TerminalSession.

(** The id the backend returns from [spawn_terminal].  The component only
    interpolates it into event names and tests it for truthiness, so both
    JS representations are kept. *)
Inductive backendId :=
| IdString (s : string)
| IdNumber (n : Z).

(** JS truthiness of an id: the empty string and 0 are falsy. *)
Definition truthy (id : backendId) : bool :=
  match id with
  | IdString s => negb (String.eqb s "")
  | IdNumber n => negb (n =? 0)
  end.

(** Calls made to the backend through [invoke]. *)
Inductive Invoke :=
| spawn_terminal (shellType : string) (cols rows : Z)
| write_terminal (id : backendId) (data : jsstr)
| close_terminal (id : backendId).

(** State of one mounted component: the [backendIdRef] reference, the
    backend calls issued so far (oldest first) and the number of
    [console.warn] calls. *)
Record Session := mkSession {
  backendIdRef : option backendId;
  invoked : list Invoke;
  warned : nat
}.

(** The component right after its effect ran: the spawn request is out,
    [backendIdRef.current] is still [null]. *)
Definition mount (shellType : string) (cols rows : Z) : Session :=
  {| backendIdRef := None;
     invoked := [spawn_terminal shellType cols rows];
     warned := 0 |}.

(** [.then(async (id) => { backendIdRef.current = id; ... })] *)
Definition spawnResolved (id : backendId) (s : Session) : Session :=
  {| backendIdRef := Some id; invoked := invoked s; warned := warned s |}.

(** [xterm.onData((data) => { if (backendIdRef.current) invoke(...) else
    console.warn(...) })] *)
Definition dataHandler (data : jsstr) (s : Session) : Session :=
  match backendIdRef s with
  | Some id =>
      if truthy id
      then {| backendIdRef := backendIdRef s;
              invoked := invoked s ++ [write_terminal id data];
              warned := warned s |}
      else {| backendIdRef := backendIdRef s;
              invoked := invoked s;
              warned := S (warned s) |}
  | None =>
      {| backendIdRef := backendIdRef s;
         invoked := invoked s;
         warned := S (warned s) |}
  end.

(** What can happen to a mounted component. *)
Inductive Event :=
| SpawnResolved (id : backendId)
| SpawnRejected
| OnData (data : jsstr).

Definition step (s : Session) (e : Event) : Session :=
  match e with
  | SpawnResolved id => spawnResolved id s
  | SpawnRejected => s
  | OnData data => dataHandler data s
  end.

Definition run (evs : list Event) (s : Session) : Session :=
  fold_left step evs s.

(** The [write_terminal] calls among the backend calls, in call order. *)
Definition writes (s : Session) : list (backendId * jsstr) :=
  omap (fun c => match c with
                 | write_terminal id data => Some (id, data)
                 | _ => None
                 end) (invoked s).

(** The claim of the specification, in its words: the data written before
    the id resolved reaches the backend, in submission order, once the id
    has resolved. *)
Definition preReadyDelivered
    (shellType : string) (cols rows : Z)
    (pre : list jsstr) (id : backendId) : Prop :=
  writes (run (map OnData pre ++ [SpawnResolved id]) (mount shellType cols rows))
  = map (fun d => (id, d)) pre.

End TerminalSession.

(** ** The [TerminalPanel] component (Terminal.jsx) *)

Module TerminalPanel.

Record TermTab := mkTermTab {
  id : string;
  shellType : option string;
  title : string
}.

Record Panel := mkPanel {
  terminals : list TermTab;
  activeTerminal : option string
}.

(** [terminals.filter((t) => t.id !== id)] *)
Definition remainingAfter (id0 : string) (ts : list TermTab) : list TermTab :=
  List.filter (fun t => negb (String.eqb (id t) id0)) ts.

(** [activeTerminal === id] *)
Definition isActive (p : Panel) (id0 : string) : bool :=
  match activeTerminal p with
  | Some a => String.eqb a id0
  | None => false
  end.

Definition closeTerminal (id0 : string) (p : Panel) : Panel :=
  let remaining := remainingAfter id0 (terminals p) in
  {| terminals := remaining;
     activeTerminal :=
       if isActive p id0
       then match remaining with
            | r :: _ => Some (id r)
            | [] => None
            end
       else activeTerminal p |}.

(** The promotion rule in the words of the specification: the session
    after the closed one, else the one before it, else none. *)
Fixpoint nextElsePrevious (before : option string) (ts : list TermTab)
    (id0 : string) : option string :=
  match ts with
  | [] => None
  | t :: rest =>
      if String.eqb (id t) id0
      then match rest with
           | n :: _ => Some (id n)
           | [] => before
           end
      else nextElsePrevious (Some (id t)) rest id0
  end.

End TerminalPanel.

(** ** The [App] component: tabs, history, debounce timer, search *)

Module Editor.

(** One entry of the [tabs] array. *)
Record Tab := mkTab {
  path : string;
  content : jsstr;
  isModified : bool;
  isEditing : bool;
  undoStack : list jsstr;
  redoStack : list jsstr
}.

(** One entry of [searchMatches]: [{ index, length }]. *)
Record Match := mkMatch {
  index : Z;
  length_ : Z
}.

(** The arrow function handed to [setTimeout] by [handleTabContentChange]
    closes over [tabs] and [activeTabIndex] of the render the handler
    belongs to, and over the handler's argument. *)
Record TimerClosure := mkClosure {
  c_tabs : list Tab;
  c_activeTabIndex : Z;
  c_newContent : jsstr
}.

(** A timeout waiting in the event loop. *)
Record Timer := mkTimer {
  t_id : nat;
  t_delay : Z;
  t_callback : TimerClosure
}.

(** The React state of [App] that the editor uses, the
    [undoDebounceTimer] reference, and the timeouts of the event loop
    ([pendingTimers], with the id the next [setTimeout] returns). *)
Record App := mkApp {
  tabs : list Tab;
  activeTabIndex : Z;
  undoDebounceTimer : option nat;
  pendingTimers : list Timer;
  nextTimerId : nat;
  showSearch : bool;
  searchQuery : jsstr;
  replaceText : jsstr;
  searchCaseSensitive : bool;
  searchRegex : bool;
  searchMatches : list Match;
  currentMatchIndex : Z
}.

(** [useState] and [useRef] initial values; timer ids start at 1. *)
Definition initial : App :=
  {| tabs := []; activeTabIndex := -1;
     undoDebounceTimer := None; pendingTimers := []; nextTimerId := 1;
     showSearch := false; searchQuery := []; replaceText := [];
     searchCaseSensitive := false; searchRegex := false;
     searchMatches := []; currentMatchIndex := -1 |}.

(** *** Setters *)

Definition setTabs (ts : list Tab) (st : App) : App :=
  mkApp ts (activeTabIndex st) (undoDebounceTimer st) (pendingTimers st)
        (nextTimerId st) (showSearch st) (searchQuery st) (replaceText st)
        (searchCaseSensitive st) (searchRegex st) (searchMatches st)
        (currentMatchIndex st).

Definition setActiveTabIndex (i : Z) (st : App) : App :=
  mkApp (tabs st) i (undoDebounceTimer st) (pendingTimers st)
        (nextTimerId st) (showSearch st) (searchQuery st) (replaceText st)
        (searchCaseSensitive st) (searchRegex st) (searchMatches st)
        (currentMatchIndex st).

Definition setSearchMatches (ms : list Match) (st : App) : App :=
  mkApp (tabs st) (activeTabIndex st) (undoDebounceTimer st)
        (pendingTimers st) (nextTimerId st) (showSearch st) (searchQuery st)
        (replaceText st) (searchCaseSensitive st) (searchRegex st) ms
        (currentMatchIndex st).

Definition setCurrentMatchIndex (i : Z) (st : App) : App :=
  mkApp (tabs st) (activeTabIndex st) (undoDebounceTimer st)
        (pendingTimers st) (nextTimerId st) (showSearch st) (searchQuery st)
        (replaceText st) (searchCaseSensitive st) (searchRegex st)
        (searchMatches st) i.

(** The inputs of the search panel: [setShowSearch], [setSearchQuery],
    [setReplaceText], [setSearchCaseSensitive], [setSearchRegex]. *)
Definition setSearchInputs (show : bool) (query replacement : jsstr)
    (caseSensitive regex : bool) (st : App) : App :=
  mkApp (tabs st) (activeTabIndex st) (undoDebounceTimer st)
        (pendingTimers st) (nextTimerId st) show query replacement
        caseSensitive regex (searchMatches st) (currentMatchIndex st).

(** [clearTimeout(id)]: the timeout with that id, if still waiting, is
    removed. *)
Definition clearTimeout (id0 : nat) (st : App) : App :=
  mkApp (tabs st) (activeTabIndex st) (undoDebounceTimer st)
        (List.filter (fun t => negb (t_id t =? id0)%nat) (pendingTimers st))
        (nextTimerId st) (showSearch st) (searchQuery st) (replaceText st)
        (searchCaseSensitive st) (searchRegex st) (searchMatches st)
        (currentMatchIndex st).

(** [undoDebounceTimer.current = setTimeout(callback, delay)] *)
Definition scheduleDebounce (callback : TimerClosure) (delay : Z)
    (st : App) : App :=
  mkApp (tabs st) (activeTabIndex st) (Some (nextTimerId st))
        (pendingTimers st ++ [mkTimer (nextTimerId st) delay callback])
        (S (nextTimerId st)) (showSearch st) (searchQuery st)
        (replaceText st) (searchCaseSensitive st) (searchRegex st)
        (searchMatches st) (currentMatchIndex st).

(** *** Derived state of a render *)

(** [activeTabIndex >= 0 ? tabs[activeTabIndex] : null] *)
Definition activeTab (st : App) : option Tab :=
  at_ (tabs st) (activeTabIndex st).

(** [activeTab?.content || ''] *)
Definition editorText (st : App) : jsstr :=
  match activeTab st with
  | Some t => content t
  | None => []
  end.

(** *** Editing and the debounced history snapshot *)

(** The callback of the debounce timer.  [tabs], [activeTabIndex] and
    [newContent] are the captured ones; [setTabs(updatedTabs)] replaces
    the current [tabs] state. *)
Definition timerCallback (c : TimerClosure) (st : App) : App :=
  match at_ (c_tabs c) (c_activeTabIndex c) with
  | None => st
  | Some tab =>
      let undo := undoStack tab in
      let previousContent := content tab in
      if decide (previousContent <> c_newContent c)
      then
        let newUndoStack := sliceLast 50 (undo ++ [previousContent]) in
        let updatedTabs :=
          setAt (c_tabs c) (c_activeTabIndex c)
                (mkTab (path tab) (content tab) (isModified tab)
                       (isEditing tab) newUndoStack [])
        in setTabs updatedTabs st
      else st
  end.

(** The event loop runs the timeout [id0] if it is still waiting. *)
Definition fireTimer (id0 : nat) (st : App) : App :=
  match List.find (fun t => (t_id t =? id0)%nat) (pendingTimers st) with
  | None => st
  | Some t => timerCallback (t_callback t) (clearTimeout id0 st)
  end.

Definition handleTabContentChange (newContent : jsstr) (st : App) : App :=
  match activeTab st with
  | None => st
  | Some active =>
      let st1 :=
        match undoDebounceTimer st with
        | Some id0 => if (id0 =? 0)%nat then st else clearTimeout id0 st
        | None => st
        end in
      let newTabs :=
        setAt (tabs st) (activeTabIndex st)
              (mkTab (path active) newContent true (isEditing active)
                     (undoStack active) (redoStack active)) in
      scheduleDebounce
        (mkClosure (tabs st) (activeTabIndex st) newContent) 300
        (setTabs newTabs st1)
  end.

Definition handleUndo (st : App) : App :=
  match activeTab st with
  | None => st
  | Some active =>
      match pop (undoStack active) with
      | None => st
      | Some (previousContent, newUndoStack) =>
          let newRedoStack :=
            sliceLast 50 (redoStack active ++ [content active]) in
          setTabs (setAt (tabs st) (activeTabIndex st)
                     (mkTab (path active) previousContent true
                            (isEditing active) newUndoStack newRedoStack))
                  st
      end
  end.

Definition handleRedo (st : App) : App :=
  match activeTab st with
  | None => st
  | Some active =>
      match pop (redoStack active) with
      | None => st
      | Some (nextContent, newRedoStack) =>
          let newUndoStack :=
            sliceLast 50 (undoStack active ++ [content active]) in
          setTabs (setAt (tabs st) (activeTabIndex st)
                     (mkTab (path active) nextContent true
                            (isEditing active) newUndoStack newRedoStack))
                  st
      end
  end.

(** *** Tabs *)

(** [tabs.filter((_, i) => i !== index)] *)
Definition removeAt (ts : list Tab) (i : Z) : list Tab :=
  if 0 <=? i then delete (Z.to_nat i) ts else ts.

Definition handleCloseTab (i : Z) (st : App) : App :=
  let newTabs := removeAt (tabs st) i in
  let st1 := setTabs newTabs st in
  if i =? activeTabIndex st then
    if (length newTabs =? 0)%nat then setActiveTabIndex (-1) st1
    else if Z.of_nat (length newTabs) <=? i
         then setActiveTabIndex (Z.of_nat (length newTabs) - 1) st1
         else setActiveTabIndex i st1
  else if i <? activeTabIndex st
       then setActiveTabIndex (activeTabIndex st - 1) st1
       else st1.

(** [tabs.findIndex(tab => tab.path === p)] *)
Fixpoint findIndexFrom (p : string) (ts : list Tab) (k : nat) : Z :=
  match ts with
  | [] => -1
  | t :: rest =>
      if String.eqb (path t) p then Z.of_nat k
      else findIndexFrom p rest (S k)
  end.

Definition findIndex (p : string) (ts : list Tab) : Z := findIndexFrom p ts 0.

Definition newTab (p : string) (c : jsstr) : Tab :=
  mkTab p c false false [] [].

(** An entry of the file tree, as far as [handleFileClick] reads it. *)
Record FileItem := mkFileItem {
  item_path : string;
  is_directory : bool
}.

(** Calls to the backend made by the open handlers. *)
Inductive Invoke :=
| open_file
| read_file_by_path (p : string).

(** [handleFileClick]: [readFile p] is what [read_file_by_path] would
    answer ([None] when the call is rejected).  The result pairs the new
    state with the backend calls that were issued. *)
Definition handleFileClick (readFile : string -> option jsstr)
    (item : FileItem) (st : App) : App * list Invoke :=
  if is_directory item then (st, [])
  else
    let existingTabIndex := findIndex (item_path item) (tabs st) in
    if 0 <=? existingTabIndex
    then (setActiveTabIndex existingTabIndex st, [])
    else
      match readFile (item_path item) with
      | Some c =>
          (setActiveTabIndex (Z.of_nat (length (tabs st)))
             (setTabs (tabs st ++ [newTab (item_path item) c]) st),
           [read_file_by_path (item_path item)])
      | None => (st, [read_file_by_path (item_path item)])
      end.

(** What [await invoke('open_file')] produces: a rejection, [null] (the
    dialog was dismissed) or [{ path, content }]. *)
Inductive OpenResult :=
| OpenRejected
| OpenDismissed
| OpenPicked (p : string) (c : jsstr).

(** The part of [handleOpenFile] after the [await].  [captured] is the
    [tabs] array of the render the handler was created in; [st] is the
    state when the promise resolves. *)
Definition handleOpenFileResume (captured : list Tab) (result : OpenResult)
    (st : App) : App :=
  match result with
  | OpenRejected => st
  | OpenDismissed => st
  | OpenPicked p c =>
      let existingTabIndex := findIndex p captured in
      if 0 <=? existingTabIndex
      then setActiveTabIndex existingTabIndex st
      else setActiveTabIndex (Z.of_nat (length captured))
             (setTabs (captured ++ [newTab p c]) st)
  end.

(** [handleOpenFile] when nothing else happens while the dialog is open. *)
Definition handleOpenFile (result : OpenResult) (st : App)
    : App * list Invoke :=
  (handleOpenFileResume (tabs st) result st, [open_file]).

(** [handleSaveFile]; [ok] tells whether [save_file] succeeded. *)
Definition handleSaveFile (ok : bool) (st : App) : App :=
  match activeTab st with
  | None => st
  | Some active =>
      if ok
      then setTabs (setAt (tabs st) (activeTabIndex st)
                      (mkTab (path active) (content active) false
                             (isEditing active) (undoStack active)
                             (redoStack active))) st
      else st
  end.

Definition handleToggleEdit (st : App) : App :=
  match activeTab st with
  | None => st
  | Some active =>
      setTabs (setAt (tabs st) (activeTabIndex st)
                 (mkTab (path active) (content active) (isModified active)
                        (negb (isEditing active)) (undoStack active)
                        (redoStack active))) st
  end.

(** *** Search *)

(** [const flags = searchCaseSensitive ? 'g' : 'gi'] *)
Definition regexFlags (caseSensitive : bool) : string :=
  if caseSensitive then "g"%string else "gi"%string.

(** Whether a flags string contains the flag [f]. *)
Fixpoint hasFlag (f : ascii) (flags : string) : bool :=
  match flags with
  | EmptyString => false
  | String c rest => Ascii.eqb c f || hasFlag f rest
  end.

(** The [while (index !== -1)] loop of the literal branch.  [fuel] bounds
    the number of iterations; [None] means the bound was hit. *)
Fixpoint literalLoop (fuel : nat) (searchText query : jsstr) (len : Z)
    (i : Z) (matches : list Match) {struct fuel} : option (list Match) :=
  if i =? -1 then Some matches
  else match fuel with
       | O => None
       | S fuel' =>
           literalLoop fuel' searchText query len
                       (indexOf searchText query (i + 1))
                       (matches ++ [mkMatch i len])
       end.

Definition literalMatches (fuel : nat) (caseSensitive : bool)
    (text query0 : jsstr) : option (list Match) :=
  let searchText := if caseSensitive then text else toLowerCase text in
  let query := if caseSensitive then query0 else toLowerCase query0 in
  literalLoop fuel searchText query (Z.of_nat (length query0))
              (indexOf searchText query 0) [].

Section Search.

(** The pattern engine is a built-in of the runtime. *)
Variable RegExp : Type.

(** [new RegExp(pattern, flags)]; [None] when it throws. *)
Variable newRegExp : jsstr -> string -> option RegExp.

(** One [regex.exec(text)] of a global regex whose [lastIndex] is the
    third argument: [null], or [match.index] and [match[0]]. *)
Variable exec : RegExp -> jsstr -> Z -> option (Z * jsstr).

(** The [while ((match = regex.exec(editorText)) !== null)] loop.  A
    successful [exec] leaves [lastIndex] at the end of the match. *)
Fixpoint regexLoop (fuel : nat) (regex : RegExp) (text : jsstr)
    (lastIndex : Z) (matches : list Match) : option (list Match) :=
  match fuel with
  | O => None
  | S fuel' =>
      match exec regex text lastIndex with
      | None => Some matches
      | Some (i, m0) =>
          regexLoop fuel' regex text (i + Z.of_nat (length m0))
                    (matches ++ [mkMatch i (Z.of_nat (length m0))])
      end
  end.

(** The successive answers of [exec], starting with [lastIndex], up to
    the first [null]. *)
Inductive ExecTrace (regex : RegExp) (text : jsstr)
  : Z -> list Match -> Prop :=
| ExecTrace_null lastIndex :
    exec regex text lastIndex = None ->
    ExecTrace regex text lastIndex []
| ExecTrace_match lastIndex i m0 ms :
    exec regex text lastIndex = Some (i, m0) ->
    ExecTrace regex text (i + Z.of_nat (length m0)) ms ->
    ExecTrace regex text lastIndex (mkMatch i (Z.of_nat (length m0)) :: ms).

(** Every match lies at or after [lastIndex], inside the text, and is
    not empty. *)
Definition advancing (regex : RegExp) (text : jsstr) : Prop :=
  forall lastIndex i m0,
    exec regex text lastIndex = Some (i, m0) ->
    lastIndex <= i /\ m0 <> []
    /\ i + Z.of_nat (length m0) <= Z.of_nat (length text).

(** The matches computed inside the [try] block; the outer [option] is
    the fuel, the inner one is [None] when the [catch] branch runs. *)
Definition computeMatches (fuel : nat) (st : App)
    : option (option (list Match)) :=
  if searchRegex st
  then match newRegExp (searchQuery st)
                       (regexFlags (searchCaseSensitive st)) with
       | None => Some None
       | Some regex =>
           match regexLoop fuel regex (editorText st) 0 [] with
           | None => None
           | Some ms => Some (Some ms)
           end
       end
  else match literalMatches fuel (searchCaseSensitive st)
                            (editorText st) (searchQuery st) with
       | None => None
       | Some ms => Some (Some ms)
       end.

(** The effect that recomputes [searchMatches]; [None] when the loop
    does not finish within [fuel] iterations. *)
Definition searchEffect (fuel : nat) (st : App) : option App :=
  if (length (searchQuery st) =? 0)%nat
     || (length (editorText st) =? 0)%nat
     || negb (showSearch st)
  then Some (setCurrentMatchIndex (-1) (setSearchMatches [] st))
  else match computeMatches fuel st with
       | None => None
       | Some None =>
           Some (setCurrentMatchIndex (-1) (setSearchMatches [] st))
       | Some (Some ms) =>
           Some (setCurrentMatchIndex
                   (if (0 <? length ms)%nat then 0 else -1)
                   (setSearchMatches ms st))
       end.

End Search.

Definition handleFindNext (st : App) : App :=
  if (length (searchMatches st) =? 0)%nat then st
  else setCurrentMatchIndex
         (Z.rem (currentMatchIndex st + 1)
                (Z.of_nat (length (searchMatches st)))) st.

Definition handleFindPrevious (st : App) : App :=
  if (length (searchMatches st) =? 0)%nat then st
  else setCurrentMatchIndex
         (Z.rem (currentMatchIndex st - 1
                 + Z.of_nat (length (searchMatches st)))
                (Z.of_nat (length (searchMatches st)))) st.

(** *** Replace *)

(** [newContent.substring(0, match.index) + replaceText +
    newContent.substring(match.index + match.length)] *)
Definition splice (replacement newContent : jsstr) (m : Match) : jsstr :=
  substring newContent 0 (index m) ++ replacement
  ++ substringFrom newContent (index m + length_ m).

Definition handleReplace (st : App) : App :=
  match activeTab st with
  | None => st
  | Some _ =>
      if (currentMatchIndex st <? 0)
         || (Z.of_nat (length (searchMatches st)) <=? currentMatchIndex st)
      then st
      else
        match at_ (searchMatches st) (currentMatchIndex st) with
        | None => st
        | Some m =>
            let st1 :=
              handleTabContentChange
                (splice (replaceText st) (editorText st) m) st in
            if currentMatchIndex st <? Z.of_nat (length (searchMatches st)) - 1
            then setCurrentMatchIndex (currentMatchIndex st) st1
            else setCurrentMatchIndex (-1) st1
        end
  end.

(** [for (let i = searchMatches.length - 1; i >= 0; i--)]: the first
    argument is the number of iterations left, so the JS index of the
    iteration is its predecessor. *)
Fixpoint replaceAllLoop (n : nat) (ms : list Match) (replacement : jsstr)
    (newContent : jsstr) : jsstr :=
  match n with
  | O => newContent
  | S i =>
      match ms !! i with
      | Some m => replaceAllLoop i ms replacement (splice replacement newContent m)
      | None => newContent
      end
  end.

Definition replaceAllContent (text : jsstr) (ms : list Match)
    (replacement : jsstr) : jsstr :=
  replaceAllLoop (length ms) ms replacement text.

Definition handleReplaceAll (st : App) : App :=
  match activeTab st with
  | None => st
  | Some _ =>
      if (length (searchMatches st) =? 0)%nat then st
      else
        setCurrentMatchIndex (-1)
          (handleTabContentChange
             (replaceAllContent (editorText st) (searchMatches st)
                                (replaceText st)) st)
  end.

(** *** Events of the control loop *)

Inductive Event :=
| TabContentChange (newContent : jsstr)
| Timeout (id0 : nat)
| Undo
| Redo
| CloseTab (i : Z)
| SelectTab (i : Z)
| FileClick (item : FileItem) (readResult : option jsstr)
| OpenFile (result : OpenResult)
| SaveFile (ok : bool)
| ToggleEdit
| FindNext
| FindPrevious
| Replace
| ReplaceAll
| SearchInputs (show : bool) (query replacement : jsstr)
               (caseSensitive regex : bool)
| SearchResult (ms : list Match) (current : Z).

(** One turn of the loop.  [SearchResult] stands for the two setters at
    the end of the search effect, with whatever the effect computed. *)
Definition step (st : App) (e : Event) : App :=
  match e with
  | TabContentChange c => handleTabContentChange c st
  | Timeout id0 => fireTimer id0 st
  | Undo => handleUndo st
  | Redo => handleRedo st
  | CloseTab i => handleCloseTab i st
  | SelectTab i => setActiveTabIndex i st
  | FileClick item r => fst (handleFileClick (fun _ => r) item st)
  | OpenFile r => fst (handleOpenFile r st)
  | SaveFile ok => handleSaveFile ok st
  | ToggleEdit => handleToggleEdit st
  | FindNext => handleFindNext st
  | FindPrevious => handleFindPrevious st
  | Replace => handleReplace st
  | ReplaceAll => handleReplaceAll st
  | SearchInputs show q r cs re => setSearchInputs show q r cs re st
  | SearchResult ms i => setCurrentMatchIndex i (setSearchMatches ms st)
  end.

Definition run (evs : list Event) (st : App) : App := fold_left step evs st.

(** *** Reference definitions used to state the properties *)

(** All positions, counted from [k], at which [q] occurs in [s]. *)
Fixpoint occurrences (q s : jsstr) (k : nat) : list nat :=
  (if startsWith q s then [k] else [])
  ++ match s with
     | [] => []
     | _ :: s' => occurrences q s' (S k)
     end.

(** Offsets are inside the buffer and do not decrease along the list. *)
Fixpoint ascendingInRange (low : Z) (ms : list Match) (len : Z) : Prop :=
  match ms with
  | [] => True
  | m :: rest =>
      low <= index m /\ index m <= len /\ ascendingInRange (index m) rest len
  end.

(** Spans lie inside the buffer, in order, and do not overlap. *)
Fixpoint nonOverlapping (low : Z) (ms : list Match) (len : Z) : Prop :=
  match ms with
  | [] => low <= len
  | m :: rest =>
      low <= index m /\ 0 <= length_ m
      /\ nonOverlapping (index m + length_ m) rest len
  end.

(** The buffer with every span of [ms] replaced by [replacement], built
    from left to right starting at position [pos]. *)
Fixpoint replaceSpans (buf : jsstr) (pos : Z) (ms : list Match)
    (replacement : jsstr) : jsstr :=
  match ms with
  | [] => substringFrom buf pos
  | m :: rest =>
      substring buf pos (index m) ++ replacement
      ++ replaceSpans buf (index m + length_ m) rest replacement
  end.

(** The tab at a number index. *)
Definition tabAt (st : App) (i : Z) : option Tab := at_ (tabs st) i.

(** The search state is well formed: without matches there is no current
    match. *)
Definition SearchWf (st : App) : Prop :=
  searchMatches st = [] -> currentMatchIndex st = -1.

(** What the timer machinery sees of a state. *)
Definition timerFields (st : App) : option nat * list Timer * nat :=
  (undoDebounceTimer st, pendingTimers st, nextTimerId st).

(** The timers of a state are well formed: at most one timeout waits, it
    is the one the reference holds, it was issued earlier, and it waits
    300 ms. *)
Definition TimersWf (st : App) : Prop :=
  (1 <= nextTimerId st)%nat
  /\ (length (pendingTimers st) <= 1)%nat
  /\ Forall (fun t => undoDebounceTimer st = Some (t_id t)
                      /\ (1 <= t_id t < nextTimerId st)%nat
                      /\ t_delay t = 300)
            (pendingTimers st).

End Editor.

(** ** Invariants and event classes of the editor *)

Module EditorInv.
Import Editor.

(** Both history stacks of a tab hold at most 50 snapshots. *)
Definition TabOk (t : Tab) : Prop :=
  (length (undoStack t) <= 50)%nat /\ (length (redoStack t) <= 50)%nat.

(** No path is open twice, and every tab is [TabOk]. *)
Definition TabsOk (ts : list Tab) : Prop :=
  NoDup (map path ts) /\ Forall TabOk ts.

(** The [tabs] state and every [tabs] array captured by a waiting
    timeout are [TabsOk]. *)
Definition AppOk (st : App) : Prop :=
  TabsOk (tabs st)
  /\ Forall (fun t => TabsOk (c_tabs (t_callback t))) (pendingTimers st).

(** [currentMatchIndex] is -1 or an index of [searchMatches]. *)
Definition MatchIndexValid (st : App) : Prop :=
  currentMatchIndex st = -1
  \/ 0 <= currentMatchIndex st < Z.of_nat (length (searchMatches st)).

(** A [SearchResult] event that carries what the search effect sets:
    the first match is current when there is one. *)
Definition fromEffect (e : Event) : Prop :=
  match e with
  | SearchResult ms i => i = if (0 <? length ms)%nat then 0 else -1
  | _ => True
  end.

(** Events whose handlers neither schedule, cancel nor run a timeout. *)
Definition quiet (e : Event) : bool :=
  match e with
  | TabContentChange _ | Timeout _ | Replace | ReplaceAll => false
  | _ => true
  end.

End EditorInv.

(** ** Mounting and unmounting a [Terminal] (Terminal.jsx) *)

Module TerminalLifecycle.
Import TerminalSession.

(** A mounted component with what its cleanup looks at: the session, the
    [readIntervalRef] reference (set once the three [listen] calls have
    resolved) and whether the cleanup has run. *)
Record Life := mkLife {
  session : Session;
  listenersStored : bool;
  listening : bool;
  unmounted : bool
}.

Definition mounted (shellType : string) (cols rows : Z) : Life :=
  mkLife (mount shellType cols rows) false false false.

(** What can happen to the component.  [Resolved] is the start of the
    [then] callback, up to the first [await]; [ListenersReady] is its
    continuation after the three [listen] calls, which stores the
    unlisten functions; [Data] is input typed into xterm; [Cleanup] is
    the function returned by the effect. *)
Inductive LifeEvent :=
| Resolved (id : backendId)
| ListenersReady
| Data (data : jsstr)
| Cleanup.

Definition lifeStep (l : Life) (e : LifeEvent) : Life :=
  match e with
  | Resolved id =>
      mkLife (spawnResolved id (session l)) (listenersStored l)
             (listening l) (unmounted l)
  | ListenersReady =>
      mkLife (session l) true true (unmounted l)
  | Data data =>
      if unmounted l then l
      else mkLife (dataHandler data (session l)) (listenersStored l)
                  (listening l) (unmounted l)
  | Cleanup =>
      let s := session l in
      let closed :=
        match backendIdRef s with
        | Some id =>
            if truthy id
            then mkSession (backendIdRef s)
                           (invoked s ++ [close_terminal id]) (warned s)
            else s
        | None => s
        end in
      mkLife closed (listenersStored l)
             (if listenersStored l then false else listening l) true
  end.

Definition lifeRun (evs : list LifeEvent) (l : Life) : Life :=
  fold_left lifeStep evs l.

(** The ids of the [close_terminal] calls, in call order. *)
Definition closes (s : Session) : list backendId :=
  omap (fun c => match c with
                 | close_terminal id => Some id
                 | _ => None
                 end) (invoked s).

Definition isCleanup (e : LifeEvent) : bool :=
  match e with Cleanup => true | _ => false end.

End TerminalLifecycle.

(** ** Spawning terminal tabs and closing them from the backend *)

Module TerminalTabs.
Import TerminalPanel.

(** [`${n}`] for a number that is a natural. *)
Definition decimal (n : nat) : string :=
  NilEmpty.string_of_uint (Nat.to_uint n).

(** [shellType || defaultShell]: [None] stands for [null]. *)
Definition shellOr (shell defaultShell : option string) : option string :=
  match shell with
  | Some s => if String.eqb s "" then defaultShell else Some s
  | None => defaultShell
  end.

(** [`${x}`] for a string or [null]. *)
Definition show (x : option string) : string :=
  match x with
  | Some s => s
  | None => "null"
  end.

(** [spawnTerminal(shellType)]; [now] is [Date.now()].  The third
    setter, [setShowShellSelector(false)], concerns the dropdown only. *)
Definition spawnTerminal (now : nat) (defaultShell shell : option string)
    (p : Panel) : Panel :=
  let newId := ("term-" ++ decimal now)%string in
  let newTerm :=
    mkTermTab newId (shellOr shell defaultShell)
              (show (shellOr shell defaultShell) ++ " - "
               ++ decimal (length (terminals p) + 1))%string in
  mkPanel (terminals p ++ [newTerm]) (Some newId).

(** [onClose] as the [closed] listener of a [Terminal] sees it.  The
    effect that registers the listener runs once per terminal, so the
    [closeTerminal] it calls belongs to the render in which the terminal
    was mounted: [terminals] and [activeTerminal] are those of
    [captured]; the setters act on the present state [p]. *)
Definition closeTerminalFrom (captured : Panel) (id0 : string) (p : Panel)
    : Panel :=
  let remaining := remainingAfter id0 (terminals captured) in
  mkPanel remaining
          (if isActive captured id0
           then match remaining with
                | r :: _ => Some (id r)
                | [] => None
                end
           else activeTerminal p).

(** What the user can do with the panel. *)
Inductive PanelEvent :=
| Spawn (now : nat) (defaultShell shell : option string)
| Close (id0 : string)
| Select (k : nat).

(** [Select k] is a click on the [k]-th tab, if there is one. *)
Definition panelStep (p : Panel) (e : PanelEvent) : Panel :=
  match e with
  | Spawn now d s => spawnTerminal now d s p
  | Close id0 => closeTerminal id0 p
  | Select k =>
      match terminals p !! k with
      | Some t => mkPanel (terminals p) (Some (id t))
      | None => p
      end
  end.

Definition panelRun (evs : list PanelEvent) (p : Panel) : Panel :=
  fold_left panelStep evs p.

Definition emptyPanel : Panel := mkPanel [] None.

(** The active id is [null] or the id of a listed terminal. *)
Definition ActiveListed (p : Panel) : Prop :=
  match activeTerminal p with
  | None => True
  | Some a => a ∈ map id (terminals p)
  end.

End TerminalTabs.

(** ** Keyboard shortcuts of [App] *)

Module Keyboard.
Import Editor.

(** The fields of a [keydown] event that the handler reads. *)
Record KeyEvent := mkKey {
  key : string;
  ctrlKey : bool;
  metaKey : bool;
  shiftKey : bool
}.

(** What one run of [handleKeyDown] leaves: the state, whether
    [e.preventDefault()] was called and whether [handleSaveFile()] was
    called. *)
Record Outcome := mkOutcome {
  state : App;
  prevented : bool;
  saveCalled : bool
}.

Definition setShowSearch (show : bool) (st : App) : App :=
  setSearchInputs show (searchQuery st) (replaceText st)
                  (searchCaseSensitive st) (searchRegex st) st.

(** The value of the leading decimal digits of a string. *)
Fixpoint digitsValue (s : string) (acc : nat) : nat :=
  match s with
  | EmptyString => acc
  | String c rest =>
      let n := nat_of_ascii c in
      if ((48 <=? n) && (n <=? 57))%nat
      then digitsValue rest (10 * acc + (n - 48))
      else acc
  end.

(** [parseInt(key)] on a key that starts with a digit, which is what the
    guard [key >= '1' && key <= '9'] lets through. *)
Definition parseInt (s : string) : Z := Z.of_nat (digitsValue s 0).

(** [key >= '1' && key <= '9'], a comparison of strings. *)
Definition isDigitKey (k : string) : bool :=
  String.leb "1" k && String.leb k "9".

Definition ctrlOrMeta (e : KeyEvent) : bool := ctrlKey e || metaKey e.

(** [handleKeyDown].  The listener is installed by an effect that
    depends on [tabs] and [activeTabIndex] only; [st] holds these two as
    the handler sees them, and [seenShowSearch] is the value of
    [showSearch] in the render that installed the listener.  The first
    five chords return; the others fall through to the checks after
    them. *)
Definition handleKeyDown (seenShowSearch : bool) (e : KeyEvent) (st : App)
    : Outcome :=
  if String.eqb (key e) "Escape" && seenShowSearch
  then mkOutcome (setShowSearch false st) true false
  else if ctrlOrMeta e && String.eqb (key e) "f"
  then mkOutcome (setShowSearch true st) true false
  else if ctrlOrMeta e && String.eqb (key e) "h"
  then mkOutcome (setShowSearch true st) true false
  else if ctrlOrMeta e && String.eqb (key e) "z" && negb (shiftKey e)
  then mkOutcome (handleUndo st) true false
  else if ctrlOrMeta e
          && (String.eqb (key e) "y"
              || (String.eqb (key e) "z" && shiftKey e))
  then mkOutcome (handleRedo st) true false
  else
    let n := Z.of_nat (length (tabs st)) in
    let o1 :=
      if ctrlOrMeta e && String.eqb (key e) "w"
      then mkOutcome
             (if 0 <=? activeTabIndex st
              then handleCloseTab (activeTabIndex st) st else st)
             true false
      else mkOutcome st false false in
    let o2 :=
      if ctrlKey e && String.eqb (key e) "Tab" && negb (shiftKey e)
      then mkOutcome
             (if 0 <? n
              then setActiveTabIndex (Z.rem (activeTabIndex st + 1) n)
                                     (state o1)
              else state o1)
             true (saveCalled o1)
      else o1 in
    let o3 :=
      if ctrlKey e && shiftKey e && String.eqb (key e) "Tab"
      then mkOutcome
             (if 0 <? n
              then setActiveTabIndex (Z.rem (activeTabIndex st - 1 + n) n)
                                     (state o2)
              else state o2)
             true (saveCalled o2)
      else o2 in
    let o4 :=
      if ctrlOrMeta e && isDigitKey (key e)
      then mkOutcome
             (if parseInt (key e) - 1 <? n
              then setActiveTabIndex (parseInt (key e) - 1) (state o3)
              else state o3)
             true (saveCalled o3)
      else o3 in
    if ctrlOrMeta e && String.eqb (key e) "s"
    then mkOutcome (state o4) true
           (match activeTab st with
            | Some a => isModified a
            | None => false
            end || saveCalled o4)
    else o4.

(** The chords the handler reacts to. *)
Definition recognized (seenShowSearch : bool) (e : KeyEvent) : bool :=
  (String.eqb (key e) "Escape" && seenShowSearch)
  || (ctrlOrMeta e
      && (String.eqb (key e) "f" || String.eqb (key e) "h"
          || String.eqb (key e) "z" || String.eqb (key e) "y"
          || String.eqb (key e) "w" || isDigitKey (key e)
          || String.eqb (key e) "s"))
  || (ctrlKey e && String.eqb (key e) "Tab").

End Keyboard.

(** ** The file tree of [App] *)

Module FileTree.

(** An entry of [fileTree]; [children] is [None] while the entry has no
    [children] property. *)
#[warnings="-register-all"]
Inductive Item :=
| mkItem (path : string) (name : string) (is_directory : bool)
         (children : option (list Item)).

Definition path (i : Item) : string :=
  match i with mkItem p _ _ _ => p end.

Definition children (i : Item) : option (list Item) :=
  match i with mkItem _ _ _ c => c end.

(** The state the folder handler works on. *)
Record Tree := mkTree {
  fileTree : list Item;
  expandedFolders : gset string
}.

(** The function mapped over the items by [updateTreeWithChildren]: the
    item with the path of the folder gets the loaded children, any other
    item with children is updated below. *)
Fixpoint updateItem (folderPath : string) (loaded : list Item) (i : Item)
    : Item :=
  match i with
  | mkItem p n d c =>
      if String.eqb p folderPath then mkItem p n d (Some loaded)
      else match c with
           | Some l => mkItem p n d (Some (map (updateItem folderPath loaded) l))
           | None => i
           end
  end.

Definition updateTreeWithChildren (folderPath : string) (loaded : list Item)
    (items : list Item) : list Item :=
  map (updateItem folderPath loaded) items.

(** [handleToggleFolder(folder)]; [loaded] is the answer of
    [get_directory_contents], [None] when the call is rejected. *)
Definition handleToggleFolder (loaded : option (list Item)) (folder : Item)
    (t : Tree) : Tree :=
  if decide (path folder ∈ expandedFolders t)
  then mkTree (fileTree t) (expandedFolders t ∖ {[path folder]})
  else
    let expanded := expandedFolders t ∪ {[path folder]} in
    match children folder with
    | Some _ => mkTree (fileTree t) expanded
    | None =>
        match loaded with
        | Some l =>
            mkTree (updateTreeWithChildren (path folder) l (fileTree t))
                   expanded
        | None => mkTree (fileTree t) expanded
        end
    end.

(** Whether an item with this path is met by the update: in the list,
    or below an item of the list that has another path. *)
Fixpoint reaches (folderPath : string) (i : Item) : bool :=
  match i with
  | mkItem p _ _ c =>
      String.eqb p folderPath
      || match c with
         | Some l => existsb (reaches folderPath) l
         | None => false
         end
  end.

End FileTree.

(** * Properties *)

Import Editor.

(** ** JavaScript built-ins on examples *)

Example substring_swaps : substring (js "hello") 3 1 = js "el".
Proof. reflexivity. Qed.

Example indexOf_from : indexOf (js "aaa") (js "aa") 1 = 1.
Proof. reflexivity. Qed.

Example indexOf_missing : indexOf (js "abc") (js "cd") 0 = -1.
Proof. reflexivity. Qed.

Example toLowerCase_abAB : toLowerCase (js "abAB") = js "abab".
Proof. reflexivity. Qed.

Example sliceLast_keeps_tail : sliceLast 2 [1; 2; 3] = [2; 3].
Proof. reflexivity. Qed.

(** ** Terminal sessions *)

Section TerminalSessionFacts.
Import TerminalSession.

Lemma run_app evs1 evs2 s : run (evs1 ++ evs2) s = run evs2 (run evs1 s).
Proof. apply fold_left_app. Qed.

(** Input typed while [backendIdRef.current] is [null] only produces
    console warnings. *)
Lemma run_data_spawning ds s :
  backendIdRef s = None ->
  run (map OnData ds) s
  = mkSession None (invoked s) (warned s + length ds).
Proof.
  revert s. induction ds as [|d ds IH]; intros [r inv w] Hr; simpl in *; subst.
  - f_equal. lia.
  - rewrite IH by reflexivity. simpl. f_equal. lia.
Qed.

(** Input typed once a truthy id is stored is forwarded, in order. *)
Lemma run_data_ready ds s id :
  backendIdRef s = Some id -> truthy id = true ->
  run (map OnData ds) s
  = mkSession (Some id) (invoked s ++ map (write_terminal id) ds) (warned s).
Proof.
  revert s. induction ds as [|d ds IH]; intros [r inv w] Hr Ht; simpl in *; subst.
  - by rewrite app_nil_r.
  - unfold dataHandler at 1. simpl. rewrite Ht.
    rewrite IH by (simpl; auto). simpl. by rewrite <- app_assoc.
Qed.

(** With a falsy id the guard of the handler never opens. *)
Lemma run_data_falsy ds s id :
  backendIdRef s = Some id -> truthy id = false ->
  run (map OnData ds) s
  = mkSession (Some id) (invoked s) (warned s + length ds).
Proof.
  revert s. induction ds as [|d ds IH]; intros [r inv w] Hr Ht; simpl in *; subst.
  - f_equal. lia.
  - unfold dataHandler at 1. simpl. rewrite Ht.
    rewrite IH by (simpl; auto). simpl. f_equal. lia.
Qed.

End TerminalSessionFacts.

(** C1 (as the code has it): the input handler forwards a write only when
    the backend id is already stored.  For any input [pre] typed while
    the session is spawning and any input [post] typed after the id
    resolved, the backend receives exactly [post], in order (nothing at
    all when the id is falsy); every element of [pre] is answered by a
    console warning and is never sent. *)
Theorem C1_writes_only_after_ready
    (shellType : string) (cols rows : Z)
    (pre post : list jsstr) (id : TerminalSession.backendId) :
  let s := TerminalSession.run
             (map TerminalSession.OnData pre
              ++ TerminalSession.SpawnResolved id
              :: map TerminalSession.OnData post)
             (TerminalSession.mount shellType cols rows) in
  TerminalSession.writes s
  = (if TerminalSession.truthy id then map (fun d => (id, d)) post else [])
  /\ TerminalSession.warned s
     = (length pre
        + (if TerminalSession.truthy id then 0 else length post))%nat.
Proof.
  intros s. subst s. rewrite run_app.
  rewrite run_data_spawning by reflexivity. simpl.
  destruct (TerminalSession.truthy id) eqn:Ht.
  - rewrite (run_data_ready _ _ id) by (simpl; auto). simpl.
    unfold TerminalSession.writes. simpl. split; [|lia].
    induction post as [|d post IH]; simpl; [done|]. by rewrite IH.
  - rewrite (run_data_falsy _ _ id) by (simpl; auto). simpl.
    unfold TerminalSession.writes. simpl. split; [done|lia].
Qed.

(** C1, counterexample: two keystrokes typed before the id resolves are
    not delivered when the session becomes ready. *)
Lemma C1_pre_ready_input_dropped :
  ~ TerminalSession.preReadyDelivered "bash" 80 24 [js "l"; js "s"]
      (TerminalSession.IdString "term-1").
Proof. unfold TerminalSession.preReadyDelivered. vm_compute. discriminate. Qed.

(** ** Terminal tabs *)

Section TerminalPanelFacts.
Import TerminalPanel.

Lemma remainingAfter_head id0 ts r rest :
  remainingAfter id0 ts = r :: rest ->
  exists l1 l2, ts = l1 ++ r :: l2
                /\ Forall (fun x => id x = id0) l1 /\ id r <> id0.
Proof.
  induction ts as [|t ts IH]; simpl; [done|].
  destruct (String.eqb_spec (id t) id0) as [He|Hne]; simpl.
  - intros H. destruct (IH H) as (l1 & l2 & -> & Hall & Hr).
    exists (t :: l1), l2. split; [done|]. split; [by constructor|done].
  - intros [= <- <-]. exists [], ts. split; [done|]. split; [constructor|done].
Qed.

Lemma remainingAfter_nil id0 ts :
  remainingAfter id0 ts = [] <-> Forall (fun x => id x = id0) ts.
Proof.
  induction ts as [|t ts IH]; simpl; [split; [constructor|done]|].
  destruct (String.eqb_spec (id t) id0) as [He|Hne]; simpl.
  - rewrite IH. split; [by constructor|]. by inversion 1.
  - split; [done|]. by inversion 1.
Qed.

End TerminalPanelFacts.

(** C6 (as the code has it): closing a terminal removes every tab with
    that id.  When the closed id was the active one, the first remaining
    tab in tab order becomes active, whatever the position of the closed
    tab, and none is active exactly when no tab remains.  Closing a tab
    that is not active leaves [activeTerminal] unchanged. *)
Theorem C6_close_promotes_first_remaining
    (p : TerminalPanel.Panel) (id0 : string) :
  let p' := TerminalPanel.closeTerminal id0 p in
  TerminalPanel.terminals p'
  = TerminalPanel.remainingAfter id0 (TerminalPanel.terminals p)
  /\ (TerminalPanel.activeTerminal p = Some id0 ->
      TerminalPanel.activeTerminal p'
      = head (map TerminalPanel.id (TerminalPanel.terminals p'))
      /\ (forall a, TerminalPanel.activeTerminal p' = Some a ->
            exists l1 t l2,
              TerminalPanel.terminals p = l1 ++ t :: l2
              /\ Forall (fun x => TerminalPanel.id x = id0) l1
              /\ TerminalPanel.id t = a /\ a <> id0)
      /\ (TerminalPanel.activeTerminal p' = None <->
          Forall (fun x => TerminalPanel.id x = id0)
                 (TerminalPanel.terminals p)))
  /\ (TerminalPanel.activeTerminal p <> Some id0 ->
      TerminalPanel.activeTerminal p' = TerminalPanel.activeTerminal p).
Proof.
  intros p'. subst p'. unfold TerminalPanel.closeTerminal. simpl.
  split; [done|]. split.
  - intros Hact. unfold TerminalPanel.isActive. rewrite Hact, String.eqb_refl.
    destruct (TerminalPanel.remainingAfter id0 (TerminalPanel.terminals p))
      as [|r rest] eqn:Hrem; simpl.
    + split; [done|]. split; [done|].
      split; [intros _; by apply remainingAfter_nil|done].
    + split; [done|]. split.
      * intros a [= <-].
        destruct (remainingAfter_head _ _ _ _ Hrem) as (l1 & l2 & -> & Hall & Hr).
        by exists l1, r, l2.
      * split; [done|]. intros Hall%remainingAfter_nil. congruence.
  - intros Hne. unfold TerminalPanel.isActive.
    destruct (TerminalPanel.activeTerminal p) as [a|]; [|done].
    destruct (String.eqb_spec a id0); [congruence|done].
Qed.

(** C6 on three tabs a, b, c with b active and closed. *)
Lemma C6_close_promotes_first_remaining_witness :
  let p := TerminalPanel.mkPanel
             [TerminalPanel.mkTermTab "a" None "sh - 1";
              TerminalPanel.mkTermTab "b" None "sh - 2";
              TerminalPanel.mkTermTab "c" None "sh - 3"] (Some "b"%string) in
  TerminalPanel.activeTerminal p = Some "b"%string
  /\ TerminalPanel.activeTerminal (TerminalPanel.closeTerminal "b" p)
     = Some "a"%string.
Proof.
  intros p. split; [reflexivity|].
  destruct (C6_close_promotes_first_remaining p "b") as (_ & Hact & _).
  destruct (Hact eq_refl) as (Hhead & _). exact Hhead.
Defined.

(** C6, counterexample: with tabs a, b, c and b active, closing b makes a
    active, while "next, else previous" asks for c. *)
Lemma C6_middle_tab_promotes_first :
  let p := TerminalPanel.mkPanel
             [TerminalPanel.mkTermTab "a" None "sh - 1";
              TerminalPanel.mkTermTab "b" None "sh - 2";
              TerminalPanel.mkTermTab "c" None "sh - 3"] (Some "b"%string) in
  TerminalPanel.activeTerminal (TerminalPanel.closeTerminal "b" p)
  = Some "a"%string
  /\ TerminalPanel.nextElsePrevious None (TerminalPanel.terminals p) "b"
     = Some "c"%string
  /\ TerminalPanel.activeTerminal (TerminalPanel.closeTerminal "b" p)
     <> TerminalPanel.nextElsePrevious None (TerminalPanel.terminals p) "b".
Proof. vm_compute. repeat split; discriminate. Qed.

(** ** Arrays *)

Section ArrayFacts.
Context {A : Type}.
Implicit Types (l : list A) (x y : A) (i : Z).

Lemma at_Some l i x :
  at_ l i = Some x <-> 0 <= i /\ l !! Z.to_nat i = Some x.
Proof.
  unfold at_. destruct (Z.leb_spec 0 i); split; try tauto; try done.
  intros [? _]. lia.
Qed.

Lemma at_setAt l i x y : at_ l i = Some y -> at_ (setAt l i x) i = Some x.
Proof.
  rewrite !at_Some. intros [Hi Hl]. split; [done|].
  unfold setAt. apply list_lookup_insert_eq. by eapply lookup_lt_Some.
Qed.

Lemma at_setAt_ne l i j x : i <> j -> 0 <= i -> at_ (setAt l i x) j = at_ l j.
Proof.
  intros Hne Hi. unfold at_, setAt. destruct (Z.leb_spec 0 j); [|done].
  apply list_lookup_insert_ne. lia.
Qed.

Lemma pop_snoc l x : pop (l ++ [x]) = Some (x, l).
Proof. unfold pop. by rewrite last_snoc, removelast_last. Qed.

Lemma pop_None l : pop l = None <-> l = [].
Proof.
  unfold pop. destruct l as [|a l] using rev_ind; [done|].
  rewrite last_snoc. split; [done|]. by destruct l.
Qed.

Lemma sliceLast_snoc n l x :
  sliceLast (S n) (l ++ [x]) = sliceLast n l ++ [x].
Proof.
  unfold sliceLast. rewrite length_app. simpl.
  replace (length l + 1 - S n)%nat with (length l - n)%nat by lia.
  rewrite drop_app_le by lia. done.
Qed.

Lemma sliceLast_all n l : (length l <= n)%nat -> sliceLast n l = l.
Proof. intros H. unfold sliceLast. by replace (length l - n)%nat with 0%nat by lia. Qed.

Lemma sliceLast_length n l : (length (sliceLast n l) <= n)%nat.
Proof. unfold sliceLast. rewrite length_drop. lia. Qed.

End ArrayFacts.

(** ** Undo and redo *)

Lemma activeTab_setTabs_setAt st t t' :
  activeTab st = Some t ->
  activeTab (setTabs (setAt (tabs st) (activeTabIndex st) t') st) = Some t'.
Proof. unfold activeTab. simpl. intros H. by eapply at_setAt. Qed.

Lemma handleUndo_active st t top rest :
  activeTab st = Some t -> undoStack t = rest ++ [top] ->
  activeTab (handleUndo st)
  = Some (mkTab (path t) top true (isEditing t) rest
                (sliceLast 50 (redoStack t ++ [content t]))).
Proof.
  intros Ha Hu. unfold handleUndo. rewrite Ha, Hu, pop_snoc.
  by apply (activeTab_setTabs_setAt st t).
Qed.

Lemma handleRedo_active st t top rest :
  activeTab st = Some t -> redoStack t = rest ++ [top] ->
  activeTab (handleRedo st)
  = Some (mkTab (path t) top true (isEditing t)
                (sliceLast 50 (undoStack t ++ [content t])) rest).
Proof.
  intros Ha Hu. unfold handleRedo. rewrite Ha, Hu, pop_snoc.
  by apply (activeTab_setTabs_setAt st t).
Qed.

(** C4: on a tab whose undo stack is not empty, [handleUndo] puts the top
    of the undo stack into [content]; [handleRedo] run right after it
    puts back the content that was there before the undo, and the undo
    stack is again the (at most 50 last) entries it had. *)
Theorem C4_undo_then_redo (st : App) (t : Tab) :
  activeTab st = Some t ->
  undoStack t <> [] ->
  exists top,
    last (undoStack t) = Some top
    /\ content <$> activeTab (handleUndo st) = Some top
    /\ content <$> activeTab (handleRedo (handleUndo st)) = Some (content t)
    /\ undoStack <$> activeTab (handleRedo (handleUndo st))
       = Some (sliceLast 50 (undoStack t)).
Proof.
  intros Ha Hne.
  destruct (undoStack t) as [|a u] eqn:Hu using rev_ind; [done|]. clear IHu.
  exists a. split; [apply last_snoc|].
  pose proof (handleUndo_active st t a u Ha Hu) as Hundo.
  split; [by rewrite Hundo|].
  assert (Hredo := handleRedo_active (handleUndo st) _ (content t)
                     (sliceLast 49 (redoStack t)) Hundo).
  simpl in Hredo. rewrite Hredo by apply (sliceLast_snoc 49).
  simpl. done.
Qed.

(** C4 on a tab with content "abc" and snapshots "a", "ab". *)
Lemma C4_undo_then_redo_witness :
  let st := setActiveTabIndex 0
              (setTabs [mkTab "a.txt" (js "abc") true true [js "a"; js "ab"] []]
                       initial) in
  exists top,
    last [js "a"; js "ab"] = Some top
    /\ content <$> activeTab (handleUndo st) = Some top
    /\ content <$> activeTab (handleRedo (handleUndo st)) = Some (js "abc")
    /\ undoStack <$> activeTab (handleRedo (handleUndo st))
       = Some (sliceLast 50 [js "a"; js "ab"]).
Proof.
  intros st.
  apply (C4_undo_then_redo st
           (mkTab "a.txt" (js "abc") true true [js "a"; js "ab"] [])).
  - reflexivity.
  - simpl. discriminate.
Defined.

(** ** Opening a path that is already open *)

Lemma findIndexFrom_found p ts k i :
  findIndexFrom p ts k = i -> 0 <= i ->
  Z.of_nat k <= i
  /\ exists t, ts !! (Z.to_nat i - k)%nat = Some t /\ path t = p.
Proof.
  revert k. induction ts as [|t ts IH]; intros k; simpl; [lia|].
  destruct (String.eqb_spec (path t) p) as [He|Hne].
  - intros <- _. split; [lia|]. exists t.
    replace (Z.to_nat (Z.of_nat k) - k)%nat with 0%nat by lia. done.
  - intros H Hi. destruct (IH _ H Hi) as (Hk & t' & Hl & Hp).
    split; [lia|]. exists t'. split; [|done].
    replace (Z.to_nat i - k)%nat with (S (Z.to_nat i - S k)) by lia. done.
Qed.

Lemma findIndex_found p ts i :
  findIndex p ts = i -> 0 <= i ->
  exists t, at_ ts i = Some t /\ path t = p.
Proof.
  intros H Hi. destruct (findIndexFrom_found p ts 0 i H Hi) as (_ & t & Hl & Hp).
  exists t. split; [|done]. apply at_Some. split; [done|].
  by rewrite Nat.sub_0_r in Hl.
Qed.

(** C10: when the path is already open, both open handlers only move
    [activeTabIndex] to the first tab with that path.  The [tabs] array,
    hence every tab's path, content, flags and stacks, is the one of the
    state the handler runs in; the pending timers are untouched; the
    file-tree handler issues no [read_file_by_path] call, so its result
    does not depend on what the file holds; the dialog handler ignores
    the content that [open_file] returned. *)
Theorem C10_open_existing_only_activates
    (st : App) (p : string) (i : Z) :
  findIndex p (tabs st) = i ->
  0 <= i ->
  (exists t, tabAt st i = Some t /\ path t = p)
  /\ (forall readFile,
        handleFileClick readFile (mkFileItem p false) st
        = (setActiveTabIndex i st, []))
  /\ (forall c, handleOpenFile (OpenPicked p c) st
                = (setActiveTabIndex i st, [open_file]))
  /\ (forall c later,
        let st' := handleOpenFileResume (tabs st) (OpenPicked p c) later in
        tabs st' = tabs later /\ activeTabIndex st' = i
        /\ pendingTimers st' = pendingTimers later)
  /\ tabs (setActiveTabIndex i st) = tabs st
  /\ activeTabIndex (setActiveTabIndex i st) = i.
Proof.
  intros Hf Hi. split; [by apply findIndex_found|].
  assert (Hle : (0 <=? i) = true) by (apply Z.leb_le; lia).
  repeat split.
  - intros readFile. unfold handleFileClick. simpl. by rewrite Hf, Hle.
  - intros c. unfold handleOpenFile, handleOpenFileResume. by rewrite Hf, Hle.
  - unfold handleOpenFileResume. by rewrite Hf, Hle.
  - unfold handleOpenFileResume. by rewrite Hf, Hle.
  - unfold handleOpenFileResume. by rewrite Hf, Hle.
Qed.

(** C10 on a click on b.txt, open in the second tab, while the file
    holds something else. *)
Lemma C10_open_existing_only_activates_witness :
  let st := setActiveTabIndex 0
              (setTabs [mkTab "a.txt" (js "old") true true [js "o"] [];
                        mkTab "b.txt" (js "b") false false [] []] initial) in
  handleFileClick (fun _ => Some (js "changed on disk"))
                  (mkFileItem "b.txt" false) st
  = (setActiveTabIndex 1 st, []).
Proof.
  intros st.
  destruct (C10_open_existing_only_activates st "b.txt" 1) as (_ & H & _).
  - reflexivity.
  - lia.
  - apply H.
Defined.

(** ** The debounce timer *)

Lemma TimersWf_ext st st' :
  timerFields st' = timerFields st -> TimersWf st -> TimersWf st'.
Proof. unfold timerFields, TimersWf. intros [= -> -> ->]. done. Qed.

Lemma TimersWf_initial : TimersWf initial.
Proof. unfold TimersWf. simpl. split; [lia|]. split; [lia|constructor]. Qed.

(** Under [TimersWf], cancelling the timer of the reference empties the
    event loop. *)
Lemma cancel_pending st :
  TimersWf st ->
  pendingTimers
    (match undoDebounceTimer st with
     | Some id0 => if (id0 =? 0)%nat then st else clearTimeout id0 st
     | None => st
     end) = [].
Proof.
  intros (_ & Hlen & Hall).
  destruct (pendingTimers st) as [|t [|t' l]] eqn:Hp; simpl in Hlen; [| |lia].
  - destruct (undoDebounceTimer st) as [id0|]; [|done].
    destruct (id0 =? 0)%nat; [done|]. simpl. by rewrite Hp.
  - apply Forall_cons in Hall as [(Href & Hid & _) _]. rewrite Href.
    destruct (Nat.eqb_spec (t_id t) 0); [lia|]. simpl. rewrite Hp. simpl.
    by rewrite Nat.eqb_refl.
Qed.

Lemma handleTabContentChange_timers st t c :
  TimersWf st -> activeTab st = Some t ->
  timerFields (handleTabContentChange c st)
  = (Some (nextTimerId st),
     [mkTimer (nextTimerId st) 300
              (mkClosure (tabs st) (activeTabIndex st) c)],
     S (nextTimerId st)).
Proof.
  intros Hwf Ha. pose proof (cancel_pending st Hwf) as Hc.
  unfold handleTabContentChange. rewrite Ha. unfold timerFields. simpl.
  rewrite Hc. simpl.
  destruct (undoDebounceTimer st) as [id0|]; [|done].
  by destruct (id0 =? 0)%nat.
Qed.

Lemma handleTabContentChange_tabs st t c :
  activeTab st = Some t ->
  tabs (handleTabContentChange c st)
  = setAt (tabs st) (activeTabIndex st)
          (mkTab (path t) c true (isEditing t) (undoStack t) (redoStack t))
  /\ activeTabIndex (handleTabContentChange c st) = activeTabIndex st.
Proof.
  intros Ha. unfold handleTabContentChange. rewrite Ha. simpl.
  destruct (undoDebounceTimer st) as [id0|]; [destruct (id0 =? 0)%nat|]; done.
Qed.

Lemma handleTabContentChange_inactive st c :
  activeTab st = None -> handleTabContentChange c st = st.
Proof. intros Ha. unfold handleTabContentChange. by rewrite Ha. Qed.

Lemma handleTabContentChange_wf st c :
  TimersWf st -> TimersWf (handleTabContentChange c st).
Proof.
  intros Hwf. destruct (activeTab st) as [t|] eqn:Ha.
  - pose proof (handleTabContentChange_timers st t c Hwf Ha) as Ht.
    unfold timerFields in Ht. injection Ht as Hr Hp Hn.
    destruct Hwf as (H1 & _ & _).
    unfold TimersWf. rewrite Hr, Hp, Hn. simpl.
    split; [lia|]. split; [lia|].
    constructor; [|constructor]. simpl. split; [done|]. split; [lia|done].
  - by rewrite handleTabContentChange_inactive.
Qed.

Lemma timerCallback_timers c st :
  timerFields (timerCallback c st) = timerFields st.
Proof.
  unfold timerCallback. destruct (at_ _ _); [|done]. by case_decide.
Qed.

Lemma clearTimeout_wf id0 st : TimersWf st -> TimersWf (clearTimeout id0 st).
Proof.
  intros (H1 & Hlen & Hall). unfold TimersWf. simpl.
  split; [done|]. split.
  - etransitivity; [apply List.filter_length_le|done].
  - apply Forall_forall. intros t Ht.
    apply list_elem_of_In, List.filter_In in Ht as [Ht _].
    rewrite Forall_forall in Hall. apply Hall. by apply list_elem_of_In.
Qed.

Lemma fireTimer_wf id0 st : TimersWf st -> TimersWf (fireTimer id0 st).
Proof.
  intros Hwf. unfold fireTimer. destruct (List.find _ _); [|done].
  eapply TimersWf_ext; [apply timerCallback_timers|]. by apply clearTimeout_wf.
Qed.

Lemma step_wf st e : TimersWf st -> TimersWf (step st e).
Proof.
  intros Hwf. destruct e; simpl.
  - by apply handleTabContentChange_wf.
  - by apply fireTimer_wf.
  - unfold handleUndo. destruct (activeTab st); [|done].
    by destruct (pop _) as [[? ?]|].
  - unfold handleRedo. destruct (activeTab st); [|done].
    by destruct (pop _) as [[? ?]|].
  - unfold handleCloseTab.
    repeat match goal with |- context [if ?b then _ else _] => destruct b end;
      done.
  - done.
  - unfold handleFileClick. destruct (is_directory item); [done|].
    destruct (0 <=? _); [done|]. by destruct readResult.
  - unfold handleOpenFile, handleOpenFileResume. simpl.
    destruct result; try done. by destruct (0 <=? _).
  - unfold handleSaveFile. destruct (activeTab st); [|done]. by destruct ok.
  - unfold handleToggleEdit. by destruct (activeTab st).
  - unfold handleFindNext. by destruct (_ =? _)%nat.
  - unfold handleFindPrevious. by destruct (_ =? _)%nat.
  - unfold handleReplace. destruct (activeTab st); [|done].
    destruct (_ || _); [done|]. destruct (at_ _ _); [|done].
    destruct (_ <? _);
      (eapply TimersWf_ext; [|by apply handleTabContentChange_wf]); done.
  - unfold handleReplaceAll. destruct (activeTab st); [|done].
    destruct (_ =? _)%nat; [done|].
    eapply TimersWf_ext; [|by apply handleTabContentChange_wf]. done.
  - done.
  - done.
Qed.

Lemma run_wf evs st : TimersWf st -> TimersWf (Editor.run evs st).
Proof.
  revert st. induction evs as [|e evs IH]; intros st Hwf; [done|].
  simpl. apply IH. by apply step_wf.
Qed.

(** Firing the timer an edit has just scheduled runs its callback on the
    state the edit left, with no timeout waiting any more. *)
Lemma fire_after_edit st t c :
  TimersWf st -> activeTab st = Some t ->
  fireTimer (nextTimerId st) (handleTabContentChange c st)
  = timerCallback (mkClosure (tabs st) (activeTabIndex st) c)
      (clearTimeout (nextTimerId st) (handleTabContentChange c st)).
Proof.
  intros Hwf Ha. pose proof (handleTabContentChange_timers st t c Hwf Ha) as Ht.
  unfold timerFields in Ht. injection Ht as Hr Hp Hn.
  unfold fireTimer. rewrite Hp. simpl. by rewrite Nat.eqb_refl.
Qed.

(** What the callback of an edit's timer leaves in [tabs]: the captured
    array with the captured tab's stacks updated when the content
    differs, and the current array otherwise. *)
Lemma timerCallback_tabs st t c later :
  activeTab st = Some t ->
  tabs (timerCallback (mkClosure (tabs st) (activeTabIndex st) c) later)
  = if decide (content t <> c)
    then setAt (tabs st) (activeTabIndex st)
               (mkTab (path t) (content t) (isModified t) (isEditing t)
                      (sliceLast 50 (undoStack t ++ [content t])) [])
    else tabs later.
Proof.
  intros Ha. unfold timerCallback. simpl. unfold activeTab in Ha. rewrite Ha.
  by case_decide.
Qed.

(** When the timer of an edit that changed the content fires, the edited
    tab is put back to what it was in the render of the edit: the content
    and the modification flag of before the edit return, with the undo
    stack extended and the redo stack emptied. *)
Lemma timer_commit_restores_captured_tab st t c :
  TimersWf st -> activeTab st = Some t -> content t <> c ->
  activeTab (handleTabContentChange c st)
  = Some (mkTab (path t) c true (isEditing t) (undoStack t) (redoStack t))
  /\ activeTab (fireTimer (nextTimerId st) (handleTabContentChange c st))
     = Some (mkTab (path t) (content t) (isModified t) (isEditing t)
                   (sliceLast 50 (undoStack t ++ [content t])) []).
Proof.
  intros Hwf Ha Hc.
  destruct (handleTabContentChange_tabs st t c Ha) as [Htabs Hidx].
  split.
  - unfold activeTab. rewrite Htabs, Hidx. by eapply at_setAt.
  - rewrite (fire_after_edit st t c Hwf Ha). unfold activeTab.
    rewrite (timerCallback_tabs st t c _ Ha). rewrite decide_True by done.
    replace (activeTabIndex (timerCallback _ _)) with (activeTabIndex st).
    + by eapply at_setAt.
    + unfold timerCallback. simpl. unfold activeTab in Ha. rewrite Ha.
      rewrite decide_True by done. simpl. done.
Qed.

(** C2, the code at the failing input: a file is opened with content "a"
    and edited to "ab"; the edit sets the content and the modification
    flag at once, but when the debounce timer fires the tab is back at
    content "a", unmodified, with "a" on its undo stack.  The commit
    changes [content] and [isModified], not only the two stacks. *)
Lemma C2_timer_commit_reverts_edit :
  let st := Editor.run [FileClick (mkFileItem "a.txt" false) (Some (js "a"));
                        ToggleEdit] initial in
  let edited := handleTabContentChange (js "ab") st in
  let committed := fireTimer 1 edited in
  activeTab st = Some (mkTab "a.txt" (js "a") false true [] [])
  /\ activeTab edited = Some (mkTab "a.txt" (js "ab") true true [] [])
  /\ map t_id (pendingTimers edited) = [1%nat]
  /\ activeTab committed = Some (mkTab "a.txt" (js "a") false true [js "a"] []).
Proof. vm_compute. done. Qed.

(** C3 (as the code has it): the component holds one timer reference for
    all tabs.  In every state reached from the initial one at most one
    debounce timeout waits, it waits 300 ms and it is the one the
    reference holds; an edit made while a tab is active cancels whatever
    timeout is waiting, whichever tab it was scheduled for, and leaves
    exactly the new timeout waiting. *)
Theorem C3_one_timer_for_the_workspace (evs : list Event) :
  let st := Editor.run evs initial in
  (length (pendingTimers st) <= 1)%nat
  /\ (forall t, In t (pendingTimers st) ->
        undoDebounceTimer st = Some (t_id t) /\ t_delay t = 300)
  /\ (forall c active,
        activeTab st = Some active ->
        pendingTimers (handleTabContentChange c st)
        = [mkTimer (nextTimerId st) 300
                   (mkClosure (tabs st) (activeTabIndex st) c)]).
Proof.
  intros st. assert (Hwf : TimersWf st) by apply run_wf, TimersWf_initial.
  split; [apply Hwf|]. split.
  - intros t Ht. destruct Hwf as (_ & _ & Hall).
    rewrite Forall_forall in Hall.
    apply list_elem_of_In, Hall in Ht. tauto.
  - intros c active Ha.
    pose proof (handleTabContentChange_timers st active c Hwf Ha) as Ht.
    unfold timerFields in Ht. by injection Ht.
Qed.

(** C3 on a second edit made while the timer of the first one waits. *)
Lemma C3_one_timer_for_the_workspace_witness :
  let st := Editor.run [FileClick (mkFileItem "a.txt" false) (Some (js "a"));
                        TabContentChange (js "ab")] initial in
  activeTab st = Some (mkTab "a.txt" (js "ab") true false [] [])
  /\ pendingTimers (handleTabContentChange (js "abc") st)
     = [mkTimer 2 300 (mkClosure (tabs st) 0 (js "abc"))].
Proof.
  intros st. split; [reflexivity|].
  destruct (C3_one_timer_for_the_workspace
              [FileClick (mkFileItem "a.txt" false) (Some (js "a"));
               TabContentChange (js "ab")]) as (_ & _ & H).
  apply (H (js "abc") (mkTab "a.txt" (js "ab") true false [] [])).
  reflexivity.
Defined.

(** C3, counterexample: tabs a.txt and b.txt are open.  An edit of a.txt
    schedules timer 1; the user switches to b.txt and edits it before
    timer 1 fires.  Timer 1 is cancelled by that edit, only timer 2
    waits, and after every timer has had its turn the undo stack of
    a.txt is still empty: its snapshot was never committed. *)
Lemma C3_edit_of_other_tab_cancels_timer :
  let opened := Editor.run
                  [FileClick (mkFileItem "a.txt" false) (Some (js "a"));
                   FileClick (mkFileItem "b.txt" false) (Some (js "b"));
                   SelectTab 0] initial in
  let editedA := Editor.run [TabContentChange (js "ax")] opened in
  let editedB := Editor.run [SelectTab 1; TabContentChange (js "by")] editedA in
  let settled := Editor.run [Timeout 1; Timeout 2] editedB in
  map (fun t => (t_id t, c_activeTabIndex (t_callback t)))
      (pendingTimers editedA) = [(1%nat, 0)]
  /\ map (fun t => (t_id t, c_activeTabIndex (t_callback t)))
         (pendingTimers editedB) = [(2%nat, 1)]
  /\ pendingTimers settled = []
  /\ tabAt settled 0 = Some (mkTab "a.txt" (js "ax") true false [] []).
Proof. vm_compute. done. Qed.

(** C5 (as the code has it): the edit itself leaves the redo stack as it
    was.  The redo stack of the edited tab is emptied when the timer of
    the edit fires, and only if the content before the edit differs from
    the new content; with equal contents the callback changes nothing. *)
Theorem C5_redo_cleared_by_timer_commit
    (evs : list Event) (c : jsstr) (t : Tab) :
  let st := Editor.run evs initial in
  let edited := handleTabContentChange c st in
  let fired := fireTimer (nextTimerId st) edited in
  activeTab st = Some t ->
  redoStack <$> activeTab edited = Some (redoStack t)
  /\ (content t <> c ->
      redoStack <$> tabAt fired (activeTabIndex st) = Some []
      /\ undoStack <$> tabAt fired (activeTabIndex st)
         = Some (sliceLast 50 (undoStack t ++ [content t])))
  /\ (content t = c -> tabs fired = tabs edited).
Proof.
  intros st edited fired Ha. subst edited fired.
  assert (Hwf : TimersWf st) by apply run_wf, TimersWf_initial.
  destruct (handleTabContentChange_tabs st t c Ha) as [Htabs Hidx].
  split; [|split].
  - unfold activeTab. rewrite Htabs, Hidx.
    unfold activeTab in Ha. by rewrite (at_setAt _ _ _ _ Ha).
  - intros Hc. unfold tabAt. rewrite (fire_after_edit st t c Hwf Ha).
    rewrite (timerCallback_tabs st t c _ Ha). rewrite decide_True by done.
    unfold activeTab in Ha. by rewrite (at_setAt _ _ _ _ Ha).
  - intros Hc. rewrite (fire_after_edit st t c Hwf Ha).
    rewrite (timerCallback_tabs st t c _ Ha). rewrite decide_False; [done|].
    intros Hn. by apply Hn.
Qed.

(** C5 on an edit made right after an undo. *)
Lemma C5_redo_cleared_by_timer_commit_witness :
  let st := Editor.run [FileClick (mkFileItem "a.txt" false) (Some (js "a"));
                        TabContentChange (js "ab"); Timeout 1; Undo] initial in
  activeTab st = Some (mkTab "a.txt" (js "a") true false [] [js "a"])
  /\ redoStack <$> activeTab (handleTabContentChange (js "ab") st)
     = Some [js "a"].
Proof.
  intros st. split; [reflexivity|].
  destruct (C5_redo_cleared_by_timer_commit
              [FileClick (mkFileItem "a.txt" false) (Some (js "a"));
               TabContentChange (js "ab"); Timeout 1; Undo] (js "ab")
              (mkTab "a.txt" (js "a") true false [] [js "a"]) eq_refl)
    as (H & _).
  exact H.
Defined.

(** C5, counterexample: after an undo the redo stack of a.txt holds one
    entry.  Replace-all of "a" by "a" is an edit that is neither undo nor
    redo; right after it the redo stack still holds its entry, and it
    still does after the timer of the edit has fired. *)
Lemma C5_same_content_edit_keeps_redo :
  let st := Editor.run
              [FileClick (mkFileItem "a.txt" false) (Some (js "a"));
               TabContentChange (js "ab"); Timeout 1; Undo;
               SearchInputs true (js "a") (js "a") true false;
               SearchResult [mkMatch 0 1] 0] initial in
  let edited := Editor.run [ReplaceAll] st in
  let fired := Editor.run [Timeout 2] edited in
  redoStack <$> activeTab st = Some [js "a"]
  /\ map t_id (pendingTimers edited) = [2%nat]
  /\ redoStack <$> activeTab edited = Some [js "a"]
  /\ pendingTimers fired = []
  /\ redoStack <$> activeTab fired = Some [js "a"].
Proof. vm_compute. done. Qed.

(** ** Literal search *)

Section LiteralSearch.
Implicit Types (q s : jsstr) (k i : nat).

Lemma startsWith_prefix q s : startsWith q s = true <-> q `prefix_of` s.
Proof.
  revert s. induction q as [|c q IH]; intros s; simpl.
  - split; [intros _; apply prefix_nil|done].
  - destruct s as [|d s]; simpl.
    + split; [done|]. intros [r Hr]. discriminate.
    + rewrite andb_true_iff, IH. split.
      * intros [->%Ascii.eqb_eq Hp]. by apply prefix_cons.
      * intros Hp. pose proof (prefix_cons_inv_1 _ _ _ _ Hp) as ->.
        split; [apply Ascii.eqb_refl|by eapply prefix_cons_inv_2].
Qed.

Lemma startsWith_nil q : q <> [] -> startsWith q [] = false.
Proof. by destruct q. Qed.

Lemma occurrences_nil q k : q <> [] -> occurrences q [] k = [].
Proof. intros H. simpl. by rewrite startsWith_nil. Qed.

Lemma indexOfFrom_head q s k :
  indexOfFrom q s k
  = match occurrences q s k with [] => -1 | i :: _ => Z.of_nat i end.
Proof.
  revert k. induction s as [|a s IH]; intros k; simpl;
    destruct (startsWith q _); simpl; auto.
Qed.

Lemma occurrences_bounds q s k i :
  q <> [] -> i ∈ occurrences q s k -> (k <= i < k + length s)%nat.
Proof.
  intros Hq. revert k. induction s as [|a s IH]; intros k.
  - rewrite occurrences_nil by done. by intros ?%elem_of_nil.
  - simpl. rewrite elem_of_app. intros [Hi|Hi].
    + destruct (startsWith q (a :: s)).
      * apply list_elem_of_singleton in Hi. lia.
      * by apply elem_of_nil in Hi.
    + apply IH in Hi. lia.
Qed.

Lemma occurrences_length q s k :
  q <> [] -> (length (occurrences q s k) <= length s)%nat.
Proof.
  intros Hq. revert k. induction s as [|a s IH]; intros k.
  - by rewrite occurrences_nil.
  - simpl. rewrite length_app. specialize (IH (S k)).
    destruct (startsWith q (a :: s)); simpl; lia.
Qed.

(** Membership: [i] is listed exactly when [q] starts at position [i]. *)
Lemma occurrences_spec q s k i :
  q <> [] ->
  i ∈ occurrences q s k
  <-> (k <= i)%nat /\ q `prefix_of` drop (i - k) s.
Proof.
  intros Hq. revert k. induction s as [|a s IH]; intros k.
  - rewrite occurrences_nil by done. rewrite drop_nil. split.
    + by intros ?%elem_of_nil.
    + intros [_ Hp]. apply prefix_nil_inv in Hp. done.
  - simpl. rewrite elem_of_app, IH. split.
    + intros [Hi|[Hk Hp]].
      * destruct (startsWith q (a :: s)) eqn:Hs.
        -- apply list_elem_of_singleton in Hi. subst i.
           split; [lia|]. rewrite Nat.sub_diag. by apply startsWith_prefix.
        -- by apply elem_of_nil in Hi.
      * split; [lia|].
        by replace (i - k)%nat with (S (i - S k)) by lia.
    + intros [Hk Hp]. destruct (decide (i = k)) as [->|Hne].
      * left. rewrite Nat.sub_diag in Hp. simpl in Hp.
        apply startsWith_prefix in Hp. rewrite Hp. by left.
      * right. split; [lia|].
        by replace (i - k)%nat with (S (i - S k)) in Hp by lia.
Qed.

(** After the first occurrence come the occurrences from one position
    past its start. *)
Lemma occurrences_tail q s k i rest :
  q <> [] -> occurrences q s k = i :: rest ->
  rest = occurrences q (drop (S (i - k)) s) (S i).
Proof.
  intros Hq. revert k. induction s as [|a s IH]; intros k.
  - by rewrite occurrences_nil.
  - simpl. destruct (startsWith q (a :: s)); simpl.
    + intros [= <- <-]. by rewrite Nat.sub_diag.
    + intros H. pose proof (occurrences_bounds q s (S k) i Hq) as Hb.
      rewrite H in Hb. specialize (Hb ltac:(left)).
      rewrite (IH _ H). by replace (i - k)%nat with (S (i - S k)) by lia.
Qed.

Lemma indexOf_occurrences q s k :
  (k <= length s)%nat ->
  indexOf s q (Z.of_nat k)
  = match occurrences q (drop k s) k with
    | [] => -1
    | i :: _ => Z.of_nat i
    end.
Proof.
  intros Hk. unfold indexOf, clamp.
  replace (Z.to_nat (Z.min (Z.max (Z.of_nat k) 0) (Z.of_nat (length s))))
    with k by lia.
  apply indexOfFrom_head.
Qed.

(** The loop, started at the first occurrence at or after [k], appends
    every occurrence from [k] on when the fuel exceeds their number. *)
Lemma literalLoop_occurrences fuel q s len k acc :
  q <> [] -> (k <= length s)%nat ->
  (length (occurrences q (drop k s) k) < fuel)%nat ->
  literalLoop fuel s q len
    (match occurrences q (drop k s) k with
     | [] => -1
     | i :: _ => Z.of_nat i
     end) acc
  = Some (acc ++ map (fun i => mkMatch (Z.of_nat i) len)
                     (occurrences q (drop k s) k)).
Proof.
  intros Hq. revert k acc. induction fuel as [|fuel IH]; intros k acc Hk Hf.
  { lia. }
  destruct (occurrences q (drop k s) k) as [|i rest] eqn:Ho.
  - simpl. by rewrite app_nil_r.
  - pose proof (occurrences_bounds q (drop k s) k i Hq) as Hb.
    rewrite Ho in Hb. specialize (Hb ltac:(left)).
    rewrite length_drop in Hb.
    pose proof (occurrences_tail q _ k i rest Hq Ho) as Hrest.
    rewrite drop_drop in Hrest.
    replace (k + S (i - k))%nat with (S i) in Hrest by lia.
    simpl. destruct (Z.eqb_spec (Z.of_nat i) (-1)); [lia|].
    replace (Z.of_nat i + 1) with (Z.of_nat (S i)) by lia.
    rewrite indexOf_occurrences by lia. rewrite <- Hrest.
    simpl in Hf. rewrite Hrest. rewrite IH; [|lia|rewrite <- Hrest; lia].
    rewrite <- Hrest. by rewrite <- app_assoc.
Qed.

Lemma toLowerCase_length s : length (toLowerCase s) = length s.
Proof. apply length_map. Qed.

Lemma toLowerCase_nonempty s : s <> [] -> toLowerCase s <> [].
Proof. by destruct s. Qed.

Lemma literalLoop_from_start fuel q s len :
  q <> [] -> (length s < fuel)%nat ->
  literalLoop fuel s q len (indexOf s q 0) []
  = Some (map (fun i => mkMatch (Z.of_nat i) len) (occurrences q s 0)).
Proof.
  intros Hq Hf.
  pose proof (indexOf_occurrences q s 0 ltac:(lia)) as Hi.
  rewrite drop_0 in Hi. change (Z.of_nat 0) with 0 in Hi. rewrite Hi.
  pose proof (literalLoop_occurrences fuel q s len 0 [] Hq ltac:(lia)) as Hl.
  rewrite drop_0 in Hl. apply Hl.
  pose proof (occurrences_length q s 0 Hq). lia.
Qed.

Lemma literalMatches_occurrences fuel cs text query :
  query <> [] -> (length text < fuel)%nat ->
  literalMatches fuel cs text query
  = Some (map (fun i => mkMatch (Z.of_nat i) (Z.of_nat (length query)))
              (occurrences (if cs then query else toLowerCase query)
                           (if cs then text else toLowerCase text) 0)).
Proof.
  intros Hq Hf. unfold literalMatches. cbv zeta.
  destruct cs; apply literalLoop_from_start;
    auto using toLowerCase_nonempty.
  by rewrite toLowerCase_length.
Qed.

(** The offsets found by the literal scan ascend and lie inside the
    buffer. *)
Lemma occurrences_ascending q s k len :
  ascendingInRange (Z.of_nat k)
    (map (fun i => mkMatch (Z.of_nat i) len) (occurrences q s k))
    (Z.of_nat (k + length s)).
Proof.
  revert k. induction s as [|a s IH]; intros k.
  - simpl. destruct (startsWith q []); simpl; [|done]. repeat split; lia.
  - specialize (IH (S k)).
    replace (Z.of_nat (S k + length s)) with (Z.of_nat (k + length (a :: s)))
      in IH by (simpl; lia).
    assert (Hweak : ascendingInRange (Z.of_nat k)
              (map (fun i => mkMatch (Z.of_nat i) len) (occurrences q s (S k)))
              (Z.of_nat (k + length (a :: s)))).
    { destruct (occurrences q s (S k)); simpl in *; [done|].
      destruct IH as (? & ? & ?). repeat split; [lia|done..]. }
    cbn [occurrences]. destruct (startsWith q (a :: s)); [|done].
    cbn [app map ascendingInRange index]. repeat split; [lia|lia|done].
Qed.

End LiteralSearch.

(** C8: in literal mode the search effect folds the case of both the
    buffer and the query unless [searchCaseSensitive] is set, and its
    match set lists, in ascending order, every position at which the
    (folded) query starts in the (folded) buffer, overlapping hits
    included, each with the length of the query; the current match is
    the first one, or -1 when there is none.  Buffer "aaa" with query
    "aa" gives offsets 0 and 1; buffer "abAB" with query "Ab", case
    insensitive, gives offsets 0 and 2. *)
Theorem C8_literal_search_overlapping :
  (forall (RegExp : Type) (newRegExp : jsstr -> string -> option RegExp)
          (exec : RegExp -> jsstr -> Z -> option (Z * jsstr))
          (st : App) (fuel : nat),
      searchRegex st = false ->
      showSearch st = true ->
      searchQuery st <> [] ->
      editorText st <> [] ->
      (length (editorText st) < fuel)%nat ->
      let fold := fun s : jsstr =>
                    if searchCaseSensitive st then s else toLowerCase s in
      let hits := occurrences (fold (searchQuery st)) (fold (editorText st)) 0 in
      searchEffect RegExp newRegExp exec fuel st
      = Some (setCurrentMatchIndex
                (if (0 <? length hits)%nat then 0 else -1)
                (setSearchMatches
                   (map (fun i => mkMatch (Z.of_nat i)
                                          (Z.of_nat (length (searchQuery st))))
                        hits) st))
      /\ (forall i : nat,
            i ∈ hits
            <-> fold (searchQuery st) `prefix_of` drop i (fold (editorText st))))
  /\ (let st := setSearchInputs true (js "aa") [] false false
                  (Editor.run [FileClick (mkFileItem "a.txt" false)
                                         (Some (js "aaa"))] initial) in
      searchMatches
        <$> searchEffect unit (fun _ _ => None) (fun _ _ _ => None) 4 st
      = Some [mkMatch 0 2; mkMatch 1 2])
  /\ (let st := setSearchInputs true (js "Ab") [] false false
                  (Editor.run [FileClick (mkFileItem "a.txt" false)
                                         (Some (js "abAB"))] initial) in
      searchMatches
        <$> searchEffect unit (fun _ _ => None) (fun _ _ _ => None) 5 st
      = Some [mkMatch 0 2; mkMatch 2 2]).
Proof.
  split; [|split; vm_compute; reflexivity].
  intros RegExp newRegExp exec st fuel Hre Hshow Hq Ht Hf fold hits.
  split.
  - unfold searchEffect, computeMatches. rewrite Hre, Hshow.
    destruct (searchQuery st) as [|qc q] eqn:Hquery; [done|].
    destruct (editorText st) as [|tc txt] eqn:Htext; [done|].
    simpl orb. cbv iota.
    rewrite literalMatches_occurrences by done.
    subst hits fold. simpl. rewrite length_map. done.
  - intros i. subst hits. rewrite occurrences_spec.
    + rewrite Nat.sub_0_r. split; [tauto|]. split; [lia|done].
    + subst fold. destruct (searchCaseSensitive st);
        auto using toLowerCase_nonempty.
Qed.

(** C8 on buffer "aaaa" and query "aa", case sensitive. *)
Lemma C8_literal_search_overlapping_witness :
  let st := setSearchInputs true (js "aa") [] true false
              (Editor.run [FileClick (mkFileItem "a.txt" false)
                                     (Some (js "aaaa"))] initial) in
  searchEffect unit (fun _ _ => None) (fun _ _ _ => None) 5 st
  = Some (setCurrentMatchIndex 0
            (setSearchMatches [mkMatch 0 2; mkMatch 1 2; mkMatch 2 2] st)).
Proof.
  intros st.
  destruct C8_literal_search_overlapping as (H & _).
  destruct (H unit (fun _ _ => None) (fun _ _ _ => None) st 5%nat)
    as (He & _).
  - reflexivity.
  - reflexivity.
  - simpl. discriminate.
  - simpl. discriminate.
  - simpl. lia.
  - exact He.
Defined.

(** ** Replace all *)

Section ReplaceAll.
Implicit Types (s buf r : jsstr) (m : Match) (ms : list Match).

Lemma substring_prefix s e :
  0 <= e -> substring s 0 e = take (Z.to_nat e) s.
Proof.
  intros He. unfold substring, clamp.
  replace (Z.to_nat (Z.min (Z.max 0 0) (Z.of_nat (length s)))) with 0%nat by lia.
  rewrite Nat.min_0_l, Nat.max_0_l, Nat.sub_0_r, drop_0.
  destruct (Z.le_gt_cases e (Z.of_nat (length s))).
  - f_equal. lia.
  - rewrite !take_ge by lia. done.
Qed.

Lemma substring_mid s a b :
  0 <= a -> a <= b -> b <= Z.of_nat (length s) ->
  substring s a b = take (Z.to_nat b - Z.to_nat a) (drop (Z.to_nat a) s).
Proof.
  intros Ha Hab Hb. unfold substring, clamp.
  replace (Z.to_nat (Z.min (Z.max a 0) (Z.of_nat (length s))))
    with (Z.to_nat a) by lia.
  replace (Z.to_nat (Z.min (Z.max b 0) (Z.of_nat (length s))))
    with (Z.to_nat b) by lia.
  rewrite Nat.min_l, Nat.max_r by lia. done.
Qed.

Lemma substringFrom_drop s a :
  0 <= a -> a <= Z.of_nat (length s) ->
  substringFrom s a = drop (Z.to_nat a) s.
Proof.
  intros Ha Hb. unfold substringFrom. rewrite substring_mid by lia.
  rewrite take_ge; [done|]. rewrite length_drop. lia.
Qed.

(** A substring is determined by the prefix up to its end. *)
Lemma substring_of_prefix s s' a b :
  0 <= a -> a <= b ->
  b <= Z.of_nat (length s) -> b <= Z.of_nat (length s') ->
  take (Z.to_nat b) s = take (Z.to_nat b) s' ->
  substring s a b = substring s' a b.
Proof.
  intros Ha Hab Hs Hs' Heq. rewrite !substring_mid by lia.
  rewrite !take_drop_commute.
  replace (Z.to_nat a + (Z.to_nat b - Z.to_nat a))%nat with (Z.to_nat b) by lia.
  by rewrite Heq.
Qed.

(** The downward loop is a right fold of [splice] over the matches. *)
Lemma replaceAllLoop_fold n ms r s :
  (n <= length ms)%nat ->
  replaceAllLoop n ms r s
  = fold_left (fun acc m => splice r acc m) (rev (take n ms)) s.
Proof.
  revert s. induction n as [|i IH]; intros s Hn; simpl; [done|].
  destruct (lookup_lt_is_Some_2 ms i ltac:(lia)) as [m Hm].
  rewrite Hm, (take_S_r _ _ _ Hm), rev_unit. simpl. apply IH. lia.
Qed.

Lemma replaceAllContent_foldr s ms r :
  replaceAllContent s ms r = foldr (fun m acc => splice r acc m) s ms.
Proof.
  unfold replaceAllContent. rewrite replaceAllLoop_fold by done.
  rewrite take_ge by done.
  rewrite <- (rev_involutive ms) at 2. symmetry.
  apply (fold_left_rev_right (fun m acc => splice r acc m)).
Qed.

(** When the loop reaches a match, the matches after it have been
    spliced and those before it are still to come. *)
Lemma replaceAllContent_split s lo m hi r :
  replaceAllContent s (lo ++ m :: hi) r
  = replaceAllContent (splice r (replaceAllContent s hi r) m) lo r.
Proof. rewrite !replaceAllContent_foldr, foldr_app. done. Qed.

Lemma ascendingInRange_weaken low low' ms len :
  low' <= low -> ascendingInRange low ms len -> ascendingInRange low' ms len.
Proof. destruct ms; simpl; [done|]. intros ? (? & ? & ?). repeat split; [lia|done..]. Qed.

Lemma ascendingInRange_app low lo m hi len :
  ascendingInRange low (lo ++ m :: hi) len ->
  low <= index m /\ index m <= len /\ ascendingInRange (index m) hi len.
Proof.
  revert low. induction lo as [|x lo IH]; intros low; simpl.
  - tauto.
  - intros (Hx & _ & Hrest). destruct (IH _ Hrest) as (? & ? & ?).
    repeat split; [lia|done..].
Qed.

Lemma nonOverlapping_le low ms len : nonOverlapping low ms len -> low <= len.
Proof.
  revert low. induction ms as [|m ms IH]; intros low; simpl; [done|].
  intros (? & ? & Hrest). apply IH in Hrest. lia.
Qed.

Lemma nonOverlapping_app low lo m hi len :
  nonOverlapping low (lo ++ m :: hi) len ->
  low <= index m /\ 0 <= length_ m
  /\ nonOverlapping (index m + length_ m) hi len.
Proof.
  revert low. induction lo as [|x lo IH]; intros low; simpl.
  - tauto.
  - intros (Hx & Hlen & Hrest). destruct (IH _ Hrest) as (? & ? & ?).
    repeat split; [lia|done..].
Qed.

(** Splices at offsets at or after [low] leave the first [low] code
    units of the buffer alone. *)
Lemma replaceAll_keeps_prefix buf ms r low :
  0 <= low ->
  ascendingInRange low ms (Z.of_nat (length buf)) ->
  take (Z.to_nat low) (replaceAllContent buf ms r) = take (Z.to_nat low) buf.
Proof.
  rewrite replaceAllContent_foldr. revert low.
  induction ms as [|m ms IH]; intros low Hlow; simpl; [done|].
  intros (Hm & Hin & Hrest).
  specialize (IH (index m) ltac:(lia) Hrest).
  set (cur := foldr _ buf ms) in *.
  unfold splice. rewrite substring_prefix by lia. rewrite IH.
  rewrite take_app_le by (rewrite length_take; lia).
  rewrite take_take. f_equal. lia.
Qed.

(** For spans in order and apart, the loop yields the buffer with each
    span replaced. *)
Lemma replaceAll_spans buf ms r pos :
  0 <= pos ->
  nonOverlapping pos ms (Z.of_nat (length buf)) ->
  replaceAllContent buf ms r
  = take (Z.to_nat pos) buf ++ replaceSpans buf pos ms r.
Proof.
  rewrite replaceAllContent_foldr. revert pos.
  induction ms as [|m ms IH]; intros pos Hpos; simpl.
  - intros Hle. rewrite substringFrom_drop by lia. by rewrite take_drop.
  - intros (Hm & Hlen & Hrest).
    pose proof (nonOverlapping_le _ _ _ Hrest) as Hend.
    rewrite (IH (index m + length_ m)) by (lia || done).
    set (e := index m + length_ m) in *.
    set (tail := replaceSpans buf e ms r).
    assert (He : length (take (Z.to_nat e) buf) = Z.to_nat e)
      by (rewrite length_take; lia).
    unfold splice. fold e.
    rewrite substring_prefix by lia.
    rewrite take_app_le by lia. rewrite take_take.
    replace (Z.to_nat (index m) `min` Z.to_nat e)%nat
      with (Z.to_nat (index m)) by lia.
    rewrite substringFrom_drop by (rewrite ?length_app; lia).
    rewrite drop_app_length' by done.
    rewrite substring_mid by lia.
    rewrite (app_assoc (take (Z.to_nat pos) buf)), take_take_drop.
    replace (Z.to_nat pos + (Z.to_nat (index m) - Z.to_nat pos))%nat
      with (Z.to_nat (index m)) by lia.
    done.
Qed.

Lemma replaceAllContent_length_ge buf ms r pos :
  0 <= pos ->
  nonOverlapping pos ms (Z.of_nat (length buf)) ->
  pos <= Z.of_nat (length (replaceAllContent buf ms r)).
Proof.
  intros Hpos Hn. pose proof (nonOverlapping_le _ _ _ Hn).
  rewrite (replaceAll_spans buf ms r pos) by done.
  rewrite length_app, length_take. lia.
Qed.

End ReplaceAll.

Lemma handleTabContentChange_nextTimerId st t c :
  activeTab st = Some t ->
  nextTimerId (handleTabContentChange c st) = S (nextTimerId st).
Proof.
  intros Ha. unfold handleTabContentChange. rewrite Ha. simpl.
  destruct (undoDebounceTimer st) as [id0|]; [destruct (id0 =? 0)%nat|]; done.
Qed.

Lemma editorText_active st t : activeTab st = Some t -> editorText st = content t.
Proof. intros Ha. unfold editorText. by rewrite Ha. Qed.

Lemma handleTabContentChange_search st c :
  searchMatches (handleTabContentChange c st) = searchMatches st
  /\ currentMatchIndex (handleTabContentChange c st) = currentMatchIndex st.
Proof.
  unfold handleTabContentChange. destruct (activeTab st); [|done]. simpl.
  destruct (undoDebounceTimer st) as [id0|]; [destruct (id0 =? 0)%nat|]; done.
Qed.

(** The search effect and the handlers keep the search state well
    formed; [SearchResult] does when it carries what the effect sets. *)
Lemma searchEffect_SearchWf {RegExp : Type}
    (newRegExp : jsstr -> string -> option RegExp)
    (exec : RegExp -> jsstr -> Z -> option (Z * jsstr)) fuel st st' :
  searchEffect RegExp newRegExp exec fuel st = Some st' -> SearchWf st'.
Proof.
  unfold searchEffect, SearchWf.
  destruct (_ || _); [by intros [= <-]|].
  destruct (computeMatches _ _ _ _ _) as [[ms|]|]; [| |done].
  - intros [= <-]. simpl. by intros ->.
  - by intros [= <-].
Qed.

Lemma step_SearchWf st e :
  SearchWf st ->
  (forall ms i, e = SearchResult ms i -> ms = [] -> i = -1) ->
  SearchWf (step st e).
Proof.
  unfold SearchWf. intros Hwf Hres. destruct e; simpl; try done.
  - by destruct (handleTabContentChange_search st newContent) as [-> ->].
  - unfold fireTimer. destruct (List.find _ _); [|done].
    unfold timerCallback. destruct (at_ _ _); [|done]. by case_decide.
  - unfold handleUndo. destruct (activeTab st); [|done].
    by destruct (pop _) as [[? ?]|].
  - unfold handleRedo. destruct (activeTab st); [|done].
    by destruct (pop _) as [[? ?]|].
  - unfold handleCloseTab.
    repeat match goal with |- context [if ?b then _ else _] => destruct b end;
      done.
  - unfold handleFileClick. destruct (is_directory item); [done|].
    destruct (0 <=? _); [done|]. by destruct readResult.
  - unfold handleOpenFileResume. destruct result; try done.
    by destruct (0 <=? _).
  - unfold handleSaveFile. destruct (activeTab st); [|done]. by destruct ok.
  - unfold handleToggleEdit. by destruct (activeTab st).
  - unfold handleFindNext.
    destruct (Nat.eqb_spec (length (searchMatches st)) 0) as [|Hn]; [done|].
    simpl. intros Hnil. by rewrite Hnil in Hn.
  - unfold handleFindPrevious.
    destruct (Nat.eqb_spec (length (searchMatches st)) 0) as [|Hn]; [done|].
    simpl. intros Hnil. by rewrite Hnil in Hn.
  - unfold handleReplace. destruct (activeTab st); [|done].
    destruct (_ || _) eqn:Hguard; [done|].
    destruct (at_ _ _); [|done].
    apply orb_false_iff in Hguard as [H0%Z.ltb_ge Hlen%Z.leb_gt].
    destruct (handleTabContentChange_search
                st (splice (replaceText st) (editorText st) m)) as [Hm _].
    destruct (_ <? _); simpl; rewrite Hm; intros Hnil;
      rewrite Hnil in Hlen; simpl in Hlen; lia.
  - unfold handleReplaceAll. destruct (activeTab st); [|done].
    by destruct (_ =? _)%nat.
  - intros Hnil. by apply (Hres ms current).
Qed.

(** C7: [handleReplaceAll] splices the replacement over the matches from
    the last to the first and leaves [currentMatchIndex] at -1.  With a
    match set that is not empty it makes one call of
    [handleTabContentChange], with the spliced buffer, and then sets the
    index; with an empty one it changes nothing.  When the loop reaches
    a match, exactly the matches after it have been spliced.  For
    offsets that ascend inside the buffer the text before the stored
    offset of that match is then still the original text, whatever the
    length of the replacement; for spans that do not overlap the matched
    span is still the original one too, and the final buffer is the
    original with every span replaced by the replacement. *)
Theorem C7_replaceAll_descending (st : App) (t : Tab) :
  activeTab st = Some t ->
  SearchWf st ->
  let buf := content t in
  let ms := searchMatches st in
  let r := replaceText st in
  let result := replaceAllContent buf ms r in
  currentMatchIndex (handleReplaceAll st) = -1
  /\ content <$> activeTab (handleReplaceAll st) = Some result
  /\ (ms <> [] ->
      handleReplaceAll st
      = setCurrentMatchIndex (-1) (handleTabContentChange result st)
      /\ nextTimerId (handleReplaceAll st) = S (nextTimerId st))
  /\ (ms = [] -> handleReplaceAll st = st)
  /\ (forall lo m hi,
        ms = lo ++ m :: hi ->
        let cur := replaceAllContent buf hi r in
        result = replaceAllContent (splice r cur m) lo r
        /\ (ascendingInRange 0 ms (Z.of_nat (length buf)) ->
            substring cur 0 (index m) = substring buf 0 (index m))
        /\ (nonOverlapping 0 ms (Z.of_nat (length buf)) ->
            substring cur (index m) (index m + length_ m)
            = substring buf (index m) (index m + length_ m)))
  /\ (nonOverlapping 0 ms (Z.of_nat (length buf)) ->
      result = replaceSpans buf 0 ms r).
Proof.
  intros Ha Hwf buf ms r result.
  assert (Hsome : ms <> [] ->
            handleReplaceAll st
            = setCurrentMatchIndex (-1) (handleTabContentChange result st)).
  { intros Hne. unfold handleReplaceAll.
    rewrite Ha, (editorText_active st t Ha).
    destruct (Nat.eqb_spec (length (searchMatches st)) 0) as [Hz|_]; [|done].
    by apply nil_length_inv in Hz. }
  assert (Hnone : ms = [] -> handleReplaceAll st = st).
  { intros Hnil. unfold handleReplaceAll. rewrite Ha.
    subst ms. by rewrite Hnil. }
  split; [|split].
  { destruct (decide (ms = [])) as [Hnil|Hne].
    - rewrite (Hnone Hnil). by apply Hwf.
    - by rewrite (Hsome Hne). }
  { destruct (decide (ms = [])) as [Hnil|Hne].
    - rewrite (Hnone Hnil), Ha. subst result. by rewrite Hnil.
    - rewrite (Hsome Hne).
      destruct (handleTabContentChange_tabs st t result Ha) as [Htabs Hidx].
      unfold activeTab in *. simpl. rewrite Htabs, Hidx.
      by rewrite (at_setAt _ _ _ _ Ha). }
  split.
  { intros Hne. split; [by apply Hsome|]. rewrite (Hsome Hne).
    by apply (handleTabContentChange_nextTimerId st t). }
  split; [done|]. split.
  - intros lo m hi Hsplit cur. split; [|split].
    + subst result cur. rewrite Hsplit. apply replaceAllContent_split.
    + rewrite Hsplit. intros (Hlow & Hin & Hhi)%ascendingInRange_app.
      rewrite !substring_prefix by lia.
      by apply replaceAll_keeps_prefix.
    + rewrite Hsplit. intros (Hlow & Hlen & Hhi)%nonOverlapping_app.
      pose proof (nonOverlapping_le _ _ _ Hhi) as Hend.
      apply substring_of_prefix; try lia.
      * apply (replaceAllContent_length_ge buf hi r (index m + length_ m));
          [lia|done].
      * subst cur.
        rewrite (replaceAll_spans buf hi r (index m + length_ m)
                   ltac:(lia) Hhi).
        rewrite take_app_length'; [done|]. rewrite length_take. lia.
  - intros Hn. subst result.
    by rewrite (replaceAll_spans buf ms r 0 ltac:(lia) Hn).
Qed.

(** C7 on three spans of lengths 1, 2, 3 replaced by "XY". *)
Lemma C7_replaceAll_descending_witness :
  let st := Editor.run
              [FileClick (mkFileItem "a.txt" false) (Some (js "a-bb-ccc"));
               SearchInputs true (js "x") (js "XY") true true;
               SearchResult [mkMatch 0 1; mkMatch 2 2; mkMatch 5 3] 0] initial in
  nonOverlapping 0 (searchMatches st) 8
  /\ content <$> activeTab (handleReplaceAll st) = Some (js "XY-XY-XY")
  /\ currentMatchIndex (handleReplaceAll st) = -1.
Proof.
  intros st.
  destruct (C7_replaceAll_descending st
              (mkTab "a.txt" (js "a-bb-ccc") false false [] []))
    as (Hidx & Hcontent & _).
  - reflexivity.
  - unfold SearchWf. simpl. discriminate.
  - split; [simpl; lia|]. split; [exact Hcontent|exact Hidx].
Defined.

(** ** Regular-expression search *)

Section RegexSearch.
Context {RegExp : Type}.
Variable newRegExp : jsstr -> string -> option RegExp.
Variable exec : RegExp -> jsstr -> Z -> option (Z * jsstr).

(** With an engine whose matches advance, the loop ends within
    [length text + 1] iterations and has collected the answers of
    [exec] one after the other; they do not overlap. *)
Lemma regexLoop_trace regex text fuel lastIndex acc :
  advancing RegExp exec regex text ->
  lastIndex <= Z.of_nat (length text) ->
  (Z.to_nat (Z.of_nat (length text) - lastIndex) < fuel)%nat ->
  exists ms,
    regexLoop RegExp exec fuel regex text lastIndex acc = Some (acc ++ ms)
    /\ ExecTrace RegExp exec regex text lastIndex ms
    /\ nonOverlapping lastIndex ms (Z.of_nat (length text)).
Proof.
  intros Hadv. revert lastIndex acc.
  induction fuel as [|fuel IH]; intros lastIndex acc Hle Hf; [lia|].
  simpl. destruct (exec regex text lastIndex) as [[i m0]|] eqn:He.
  - destruct (Hadv _ _ _ He) as (Hi & Hm & Hend).
    assert (0 < length m0)%nat by (destruct m0; simpl; [done|lia]).
    destruct (IH (i + Z.of_nat (length m0))
                 (acc ++ [mkMatch i (Z.of_nat (length m0))])) as (ms & Hl & Ht & Hn);
      [lia|lia|].
    exists (mkMatch i (Z.of_nat (length m0)) :: ms).
    split; [by rewrite Hl, <- app_assoc|].
    split; [by econstructor|]. simpl. repeat split; [lia|lia|done].
  - exists []. split; [by rewrite app_nil_r|].
    split; [by constructor|done].
Qed.

(** A match that is empty at [lastIndex] is found again and again: the
    loop exhausts any fuel. *)
Lemma regexLoop_empty_match regex text lastIndex :
  exec regex text lastIndex = Some (lastIndex, []) ->
  forall fuel acc, regexLoop RegExp exec fuel regex text lastIndex acc = None.
Proof.
  intros He fuel. induction fuel as [|fuel IH]; intros acc; simpl; [done|].
  rewrite He. simpl. rewrite Z.add_0_r. apply IH.
Qed.

End RegexSearch.

(** C9 (as the code has it): the flags handed to the pattern engine are
    "g" when [searchCaseSensitive] is set and "gi" otherwise: global
    always, case-insensitive unless case sensitive, never multiline.
    For a pattern that compiles under these flags and whose matches are
    never empty, the search effect ends and its match set is the
    sequence of the engine's successive matches from position 0, none
    starting before the end of the previous one. *)
Theorem C9_regex_flags_and_matches :
  (forall cs : bool,
      regexFlags cs = (if cs then "g" else "gi")%string
      /\ hasFlag "g" (regexFlags cs) = true
      /\ hasFlag "i" (regexFlags cs) = negb cs
      /\ hasFlag "m" (regexFlags cs) = false)
  /\ (forall (RegExp : Type) (newRegExp : jsstr -> string -> option RegExp)
             (exec : RegExp -> jsstr -> Z -> option (Z * jsstr))
             (st : App) (regex : RegExp) (fuel : nat),
        searchRegex st = true ->
        showSearch st = true ->
        searchQuery st <> [] ->
        editorText st <> [] ->
        newRegExp (searchQuery st) (regexFlags (searchCaseSensitive st))
        = Some regex ->
        advancing RegExp exec regex (editorText st) ->
        (length (editorText st) < fuel)%nat ->
        exists ms,
          searchEffect RegExp newRegExp exec fuel st
          = Some (setCurrentMatchIndex
                    (if (0 <? length ms)%nat then 0 else -1)
                    (setSearchMatches ms st))
          /\ ExecTrace RegExp exec regex (editorText st) 0 ms
          /\ nonOverlapping 0 ms (Z.of_nat (length (editorText st)))).
Proof.
  split; [by intros []|].
  intros RegExp newRegExp exec st regex fuel Hre Hshow Hq Ht Hnew Hadv Hf.
  destruct (regexLoop_trace exec regex (editorText st) fuel 0 [] Hadv)
    as (ms & Hl & Htr & Hn); [lia|lia|].
  exists ms. split; [|done].
  unfold searchEffect, computeMatches. rewrite Hre, Hshow, Hnew, Hl.
  destruct (searchQuery st); [done|]. destruct (editorText st); done.
Qed.

(** C9 on an engine that finds "a" at 0 and "bc" at 2 in "a-bc". *)
Lemma C9_regex_flags_and_matches_witness :
  let exec := fun (_ : unit) (_ : jsstr) (lastIndex : Z) =>
                if lastIndex <=? 0 then Some (0, js "a")
                else if lastIndex <=? 2 then Some (2, js "bc")
                else None in
  let st := setSearchInputs true (js "[a-c]+") [] false true
              (Editor.run [FileClick (mkFileItem "a.txt" false)
                                     (Some (js "a-bc"))] initial) in
  exists ms,
    searchEffect unit (fun _ _ => Some tt) exec 5 st
    = Some (setCurrentMatchIndex (if (0 <? length ms)%nat then 0 else -1)
                                 (setSearchMatches ms st))
    /\ ExecTrace unit exec tt (js "a-bc") 0 ms
    /\ nonOverlapping 0 ms 4.
Proof.
  intros exec st.
  destruct C9_regex_flags_and_matches as (_ & H).
  apply (H unit (fun _ _ => Some tt) exec st tt 5%nat).
  - reflexivity.
  - reflexivity.
  - simpl. discriminate.
  - simpl. discriminate.
  - reflexivity.
  - intros lastIndex i m0. subst exec. simpl.
    destruct (Z.leb_spec lastIndex 0).
    + intros [= <- <-]. simpl. split; [lia|]. split; [discriminate|lia].
    + destruct (Z.leb_spec lastIndex 2).
      * intros [= <- <-]. simpl. split; [lia|]. split; [discriminate|lia].
      * discriminate.
  - simpl. lia.
Defined.

(** C9, counterexample: the flags never contain the multiline flag, so
    the query is not compiled with both the global and the multiline
    flag. *)
Lemma C9_no_multiline_flag :
  ~ (forall cs : bool,
        hasFlag "g" (regexFlags cs) = true
        /\ hasFlag "m" (regexFlags cs) = true).
Proof. intros H. destruct (H true) as [_ Hm]. vm_compute in Hm. discriminate. Qed.

(** * Further properties of the editor *)

Import EditorInv.

(** ** Bounded history and unique paths *)

Lemma activeTab_lookup st t :
  activeTab st = Some t ->
  0 <= activeTabIndex st
  /\ tabs st !! Z.to_nat (activeTabIndex st) = Some t.
Proof. unfold activeTab. apply at_Some. Qed.

(** Replacing a tab by one with the same path and bounded stacks. *)
Lemma TabsOk_setAt ts i t t' :
  TabsOk ts -> at_ ts i = Some t -> path t' = path t -> TabOk t' ->
  TabsOk (setAt ts i t').
Proof.
  intros [Hnd Hall] [Hi Hl]%at_Some Hp Hok. unfold setAt. split.
  - change (map path) with (fmap (M:=list) path).
    rewrite list_fmap_insert, list_insert_id; [done|].
    change (fmap (M:=list) path ts) with (path <$> ts).
    rewrite list_lookup_fmap, Hl. simpl. by rewrite Hp.
  - by apply Forall_insert.
Qed.

Lemma TabsOk_removeAt ts i : TabsOk ts -> TabsOk (removeAt ts i).
Proof.
  intros [Hnd Hall]. unfold removeAt. destruct (0 <=? i); [|done]. split.
  - change (map path) with (fmap (M:=list) path). rewrite list_fmap_delete.
    eapply sublist_NoDup; [exact Hnd|apply sublist_delete].
  - by apply Forall_delete.
Qed.

Lemma findIndexFrom_missing p ts k :
  findIndexFrom p ts k < 0 -> p ∉ map path ts.
Proof.
  revert k. induction ts as [|t ts IH]; intros k; simpl.
  - intros _. apply not_elem_of_nil.
  - destruct (String.eqb_spec (path t) p) as [He|Hne]; [lia|].
    intros H. apply not_elem_of_cons. split; [done|]. by eapply IH.
Qed.

Lemma TabsOk_newTab ts p c :
  TabsOk ts -> findIndex p ts < 0 -> TabsOk (ts ++ [newTab p c]).
Proof.
  intros [Hnd Hall] Hf. split.
  - rewrite map_app. simpl. apply NoDup_app. split; [done|]. split.
    + intros x Hx ->%list_elem_of_singleton.
      by apply (findIndexFrom_missing p ts 0 Hf).
    + apply NoDup_singleton.
  - apply Forall_app. split; [done|]. constructor; [|constructor].
    unfold TabOk. simpl. lia.
Qed.

Lemma AppOk_setTabs ts st :
  TabsOk ts ->
  Forall (fun t => TabsOk (c_tabs (t_callback t))) (pendingTimers st) ->
  AppOk (setTabs ts st).
Proof. by split. Qed.

Lemma removelast_length_le {A} (l : list A) :
  (length (removelast l) <= length l)%nat.
Proof.
  destruct l as [|a l] using rev_ind; [done|].
  rewrite removelast_last, length_app. simpl. lia.
Qed.

Lemma pop_length {A} (l : list A) x rest :
  pop l = Some (x, rest) -> (length rest <= length l)%nat.
Proof.
  unfold pop. destruct (last l); [|done]. intros [= <- <-].
  apply removelast_length_le.
Qed.

Lemma handleTabContentChange_AppOk st c :
  TimersWf st -> AppOk st -> AppOk (handleTabContentChange c st).
Proof.
  intros Hwf [Htabs Hpend]. destruct (activeTab st) as [t|] eqn:Ha.
  - pose proof (handleTabContentChange_timers st t c Hwf Ha) as Ht.
    unfold timerFields in Ht. injection Ht as _ Hp _.
    destruct (handleTabContentChange_tabs st t c Ha) as [Hts _].
    split.
    + rewrite Hts. apply (TabsOk_setAt _ _ t); [done|done|done|].
      destruct Htabs as [_ Hall]. unfold activeTab in Ha.
      apply at_Some in Ha as [_ Hl].
      apply (Forall_lookup_1 _ _ _ _ Hall Hl).
    + rewrite Hp. constructor; [done|constructor].
  - by rewrite handleTabContentChange_inactive.
Qed.

Lemma fireTimer_AppOk id0 st : AppOk st -> AppOk (fireTimer id0 st).
Proof.
  intros [Htabs Hpend]. unfold fireTimer.
  destruct (List.find _ _) as [tm|] eqn:Hfind; [|done].
  apply List.find_some in Hfind as [Hin _].
  assert (Hcap : TabsOk (c_tabs (t_callback tm))).
  { rewrite Forall_forall in Hpend. apply Hpend. by apply list_elem_of_In. }
  assert (Hrest : Forall (fun t => TabsOk (c_tabs (t_callback t)))
                         (pendingTimers (clearTimeout id0 st))).
  { simpl. apply Forall_forall. intros t Ht.
    apply list_elem_of_In, List.filter_In in Ht as [Ht _].
    rewrite Forall_forall in Hpend. apply Hpend. by apply list_elem_of_In. }
  unfold timerCallback.
  destruct (at_ _ _) as [tab|] eqn:Hat; [|by split].
  case_decide; [|by split].
  apply AppOk_setTabs; [|done].
  apply (TabsOk_setAt _ _ tab); [done|done|done|].
  split; simpl; [apply sliceLast_length|lia].
Qed.

Lemma step_AppOk st e : TimersWf st -> AppOk st -> AppOk (step st e).
Proof.
  intros Hwf Hok. pose proof Hok as [Htabs Hpend]. destruct e; simpl.
  - by apply handleTabContentChange_AppOk.
  - by apply fireTimer_AppOk.
  - unfold handleUndo. destruct (activeTab st) as [a|] eqn:Ha; [|done].
    destruct (pop _) as [[prev rest]|] eqn:Hpop; [|done].
    apply AppOk_setTabs; [|done].
    apply (TabsOk_setAt _ _ a); [done|done|done|].
    destruct Htabs as [_ Hall]. apply activeTab_lookup in Ha as [_ Hl].
    destruct (Forall_lookup_1 _ _ _ _ Hall Hl) as [Hu _].
    split; simpl; [|apply sliceLast_length].
    apply pop_length in Hpop. lia.
  - unfold handleRedo. destruct (activeTab st) as [a|] eqn:Ha; [|done].
    destruct (pop _) as [[next rest]|] eqn:Hpop; [|done].
    apply AppOk_setTabs; [|done].
    apply (TabsOk_setAt _ _ a); [done|done|done|].
    destruct Htabs as [_ Hall]. apply activeTab_lookup in Ha as [_ Hl].
    destruct (Forall_lookup_1 _ _ _ _ Hall Hl) as [_ Hr].
    split; simpl; [apply sliceLast_length|].
    apply pop_length in Hpop. lia.
  - unfold handleCloseTab.
    assert (AppOk (setTabs (removeAt (tabs st) i) st))
      by (apply AppOk_setTabs; [by apply TabsOk_removeAt|done]).
    repeat match goal with |- context [if ?b then _ else _] => destruct b end;
      done.
  - done.
  - unfold handleFileClick. destruct (is_directory item); [done|].
    destruct (Z.leb_spec 0 (findIndex (item_path item) (tabs st))); [done|].
    destruct readResult; [|done]. simpl.
    apply (AppOk_setTabs _ st); [by apply TabsOk_newTab|done].
  - unfold handleOpenFileResume. destruct result; try done.
    destruct (Z.leb_spec 0 (findIndex p (tabs st))); [done|].
    apply (AppOk_setTabs _ st); [by apply TabsOk_newTab|done].
  - unfold handleSaveFile. destruct (activeTab st) as [a|] eqn:Ha; [|done].
    destruct ok; [|done]. apply AppOk_setTabs; [|done].
    apply (TabsOk_setAt _ _ a); [done|done|done|].
    destruct Htabs as [_ Hall]. apply activeTab_lookup in Ha as [_ Hl].
    apply (Forall_lookup_1 _ _ _ _ Hall Hl).
  - unfold handleToggleEdit. destruct (activeTab st) as [a|] eqn:Ha; [|done].
    apply AppOk_setTabs; [|done].
    apply (TabsOk_setAt _ _ a); [done|done|done|].
    destruct Htabs as [_ Hall]. apply activeTab_lookup in Ha as [_ Hl].
    apply (Forall_lookup_1 _ _ _ _ Hall Hl).
  - unfold handleFindNext. by destruct (_ =? _)%nat.
  - unfold handleFindPrevious. by destruct (_ =? _)%nat.
  - unfold handleReplace. destruct (activeTab st); [|done].
    destruct (_ || _); [done|]. destruct (at_ _ _) as [m|]; [|done].
    pose proof (handleTabContentChange_AppOk
                  st (splice (replaceText st) (editorText st) m) Hwf Hok).
    by destruct (_ <? _).
  - unfold handleReplaceAll. destruct (activeTab st); [|done].
    destruct (_ =? _)%nat; [done|].
    by pose proof (handleTabContentChange_AppOk
                     st (replaceAllContent (editorText st) (searchMatches st)
                                           (replaceText st)) Hwf Hok).
  - done.
  - done.
Qed.

Lemma run_AppOk evs st :
  TimersWf st -> AppOk st -> AppOk (Editor.run evs st).
Proof.
  revert st. induction evs as [|e evs IH]; intros st Hwf Hok; [done|].
  simpl. apply IH; [by apply step_wf|by apply step_AppOk].
Qed.

Lemma AppOk_initial : AppOk initial.
Proof. split; simpl; [split; constructor|constructor]. Qed.

(** X1: in every state reached from the initial one, whatever the order
    of edits, timeouts, undos, redos and tab operations, no tab holds
    more than 50 undo snapshots or more than 50 redo snapshots. *)
Theorem X1_history_stacks_bounded (evs : list Event) (t : Tab) :
  t ∈ tabs (Editor.run evs initial) ->
  (length (undoStack t) <= 50)%nat /\ (length (redoStack t) <= 50)%nat.
Proof.
  intros Hin.
  destruct (run_AppOk evs initial TimersWf_initial AppOk_initial)
    as [[_ Hall] _].
  rewrite Forall_forall in Hall. by apply Hall.
Qed.

(** X1 on the tab left by one edit and its timeout. *)
Lemma X1_history_stacks_bounded_witness :
  let t := mkTab "a.txt" (js "a") false false [js "a"] [] in
  (length (undoStack t) <= 50)%nat /\ (length (redoStack t) <= 50)%nat.
Proof.
  intros t.
  apply (X1_history_stacks_bounded
           [FileClick (mkFileItem "a.txt" false) (Some (js "a"));
            TabContentChange (js "ab"); Timeout 1]).
  vm_compute. left.
Defined.

(** X2: in every state reached from the initial one the open tabs have
    pairwise different paths: no file is ever open in two tabs. *)
Theorem X2_open_paths_unique (evs : list Event) :
  NoDup (map path (tabs (Editor.run evs initial))).
Proof.
  by destruct (run_AppOk evs initial TimersWf_initial AppOk_initial)
    as [[Hnd _] _].
Qed.

(** ** Closing tabs *)

Lemma removeAt_delete ts i :
  0 <= i -> removeAt ts i = delete (Z.to_nat i) ts.
Proof. intros Hi. unfold removeAt. by destruct (Z.leb_spec 0 i); [|lia]. Qed.

(** X3: closing a tab other than the active one leaves the same tab
    active: the index is shifted left when the closed tab was before it
    and kept otherwise; the tab list loses exactly the closed tab. *)
Theorem X3_close_other_tab_keeps_active (st : App) (t : Tab) (i : Z) :
  activeTab st = Some t ->
  0 <= i ->
  i <> activeTabIndex st ->
  activeTab (handleCloseTab i st) = Some t
  /\ tabs (handleCloseTab i st) = delete (Z.to_nat i) (tabs st)
  /\ activeTabIndex (handleCloseTab i st)
     = (if i <? activeTabIndex st then activeTabIndex st - 1
        else activeTabIndex st).
Proof.
  intros Ha Hi Hne. apply activeTab_lookup in Ha as [H0 Hl].
  unfold handleCloseTab. rewrite removeAt_delete by done.
  destruct (Z.eqb_spec i (activeTabIndex st)); [done|].
  destruct (Z.ltb_spec i (activeTabIndex st)).
  - split; [|done]. unfold activeTab. simpl. apply at_Some. split; [lia|].
    rewrite list_lookup_delete_ge by lia.
    by replace (S (Z.to_nat (activeTabIndex st - 1)))
      with (Z.to_nat (activeTabIndex st)) by lia.
  - split; [|done]. unfold activeTab. simpl. apply at_Some. split; [lia|].
    rewrite list_lookup_delete_lt by lia. done.
Qed.

(** X3 on three tabs with the last one active and the first one closed. *)
Lemma X3_close_other_tab_keeps_active_witness :
  let st := Editor.run
              [FileClick (mkFileItem "a.txt" false) (Some (js "a"));
               FileClick (mkFileItem "b.txt" false) (Some (js "b"));
               FileClick (mkFileItem "c.txt" false) (Some (js "c"))] initial in
  activeTab (handleCloseTab 0 st) = Some (newTab "c.txt" (js "c"))
  /\ activeTabIndex (handleCloseTab 0 st) = 1.
Proof.
  intros st.
  destruct (X3_close_other_tab_keeps_active st (newTab "c.txt" (js "c")) 0)
    as (H1 & _ & H3).
  - reflexivity.
  - lia.
  - simpl. lia.
  - split; [exact H1|exact H3].
Defined.

(** X4: closing the active tab activates the tab that followed it; when
    it was the last tab, the one before it; when it was the only tab, no
    tab is active and the index is -1. *)
Theorem X4_close_active_tab_promotes_next (st : App) (t : Tab) :
  activeTab st = Some t ->
  let n := Z.to_nat (activeTabIndex st) in
  let st' := handleCloseTab (activeTabIndex st) st in
  tabs st' = delete n (tabs st)
  /\ activeTab st'
     = match tabs st !! S n with
       | Some next => Some next
       | None => if (n =? 0)%nat then None else tabs st !! (n - 1)%nat
       end
  /\ (activeTabIndex st' = -1 <-> length (tabs st) = 1%nat).
Proof.
  intros Ha n st'. apply activeTab_lookup in Ha as [H0 Hl].
  pose proof (lookup_lt_Some _ _ _ Hl) as Hlt. fold n in Hl, Hlt.
  subst st'. unfold handleCloseTab. rewrite removeAt_delete by done. fold n.
  rewrite Z.eqb_refl.
  assert (Hlen : length (delete n (tabs st)) = (length (tabs st) - 1)%nat).
  { rewrite length_delete; [done|]. by exists t. }
  rewrite Hlen.
  destruct (Nat.eqb_spec (length (tabs st) - 1) 0) as [Hz|Hnz].
  - split; [done|]. split; [|simpl; split; [lia|done]].
    unfold activeTab. simpl.
    rewrite (lookup_ge_None_2 (tabs st) (S n)) by lia.
    by replace n with 0%nat by lia.
  - destruct (Z.leb_spec (Z.of_nat (length (tabs st) - 1)) (activeTabIndex st)).
    + split; [done|]. split; [|simpl; split; lia].
      unfold activeTab, at_. simpl.
      destruct (Z.leb_spec 0 (Z.of_nat (length (tabs st) - 1) - 1)); [|lia].
      rewrite (lookup_ge_None_2 (tabs st) (S n)) by lia.
      destruct (Nat.eqb_spec n 0); [lia|].
      rewrite list_lookup_delete_lt by lia. f_equal. lia.
    + split; [done|]. split; [|simpl; split; lia].
      unfold activeTab, at_. simpl.
      destruct (Z.leb_spec 0 (activeTabIndex st)); [|lia]. fold n.
      rewrite list_lookup_delete_ge by lia.
      destruct (lookup_lt_is_Some_2 (tabs st) (S n) ltac:(lia)) as [x Hx].
      by rewrite Hx.
Qed.

(** X4 on three tabs with the middle one active. *)
Lemma X4_close_active_tab_promotes_next_witness :
  let st := Editor.run
              [FileClick (mkFileItem "a.txt" false) (Some (js "a"));
               FileClick (mkFileItem "b.txt" false) (Some (js "b"));
               FileClick (mkFileItem "c.txt" false) (Some (js "c"));
               SelectTab 1] initial in
  activeTab (handleCloseTab 1 st) = Some (newTab "c.txt" (js "c")).
Proof.
  intros st.
  destruct (X4_close_active_tab_promotes_next st (newTab "b.txt" (js "b")))
    as (_ & H & _).
  - reflexivity.
  - exact H.
Defined.

(** ** What a timeout does to changes made since its edit *)

Lemma step_quiet_timers st e :
  quiet e = true -> timerFields (step st e) = timerFields st.
Proof.
  destruct e; simpl; try done; intros _.
  - unfold handleUndo. destruct (activeTab st); [|done].
    by destruct (pop _) as [[? ?]|].
  - unfold handleRedo. destruct (activeTab st); [|done].
    by destruct (pop _) as [[? ?]|].
  - unfold handleCloseTab.
    repeat match goal with |- context [if ?b then _ else _] => destruct b end;
      done.
  - unfold handleFileClick. destruct (is_directory item); [done|].
    destruct (0 <=? _); [done|]. by destruct readResult.
  - unfold handleOpenFileResume. destruct result; try done.
    by destruct (0 <=? _).
  - unfold handleSaveFile. destruct (activeTab st); [|done]. by destruct ok.
  - unfold handleToggleEdit. by destruct (activeTab st).
  - unfold handleFindNext. by destruct (_ =? _)%nat.
  - unfold handleFindPrevious. by destruct (_ =? _)%nat.
Qed.

Lemma run_quiet_timers evs st :
  Forall (fun e => quiet e = true) evs ->
  timerFields (Editor.run evs st) = timerFields st.
Proof.
  revert st. induction evs as [|e evs IH]; intros st Hq; [done|].
  apply Forall_cons in Hq as [He Hq]. simpl.
  rewrite IH by done. by apply step_quiet_timers.
Qed.

(** X5: closing, opening or switching tabs, undo, redo and save do not
    cancel the waiting timeout of an edit.  When that timeout fires
    after an edit that changed the content, [tabs] becomes the array
    captured when the edit was made, with the edited tab at its content
    of before the edit, its undo stack extended and its redo stack
    empty: every change made to [tabs] since the edit is gone. *)
Theorem X5_timeout_discards_later_changes
    (evs later : list Event) (c : jsstr) (t : Tab) :
  let st := Editor.run evs initial in
  let st' := Editor.run later (handleTabContentChange c st) in
  activeTab st = Some t ->
  content t <> c ->
  Forall (fun e => quiet e = true) later ->
  map t_id (pendingTimers st') = [nextTimerId st]
  /\ tabs (fireTimer (nextTimerId st) st')
     = setAt (tabs st) (activeTabIndex st)
             (mkTab (path t) (content t) (isModified t) (isEditing t)
                    (sliceLast 50 (undoStack t ++ [content t])) []).
Proof.
  intros st st' Ha Hc Hq.
  assert (Hwf : TimersWf st) by apply run_wf, TimersWf_initial.
  pose proof (run_quiet_timers later (handleTabContentChange c st) Hq) as Hl.
  rewrite (handleTabContentChange_timers st t c Hwf Ha) in Hl.
  fold st' in Hl. unfold timerFields in Hl. injection Hl as _ Hp _.
  split; [by rewrite Hp|].
  unfold fireTimer. rewrite Hp. simpl. rewrite Nat.eqb_refl.
  rewrite (timerCallback_tabs st t c _ Ha). by rewrite decide_True.
Qed.

(** X5 on a tab that is closed while the timeout of its edit waits: the
    timeout brings the tab back. *)
Lemma X5_timeout_discards_later_changes_witness :
  let st := Editor.run [FileClick (mkFileItem "a.txt" false) (Some (js "a"))]
                       initial in
  let st' := Editor.run [CloseTab 0] (handleTabContentChange (js "ab") st) in
  tabs st' = []
  /\ tabs (fireTimer 1 st')
     = [mkTab "a.txt" (js "a") false false [js "a"] []].
Proof.
  intros st st'. split; [reflexivity|].
  destruct (X5_timeout_discards_later_changes
              [FileClick (mkFileItem "a.txt" false) (Some (js "a"))]
              [CloseTab 0] (js "ab") (newTab "a.txt" (js "a")))
    as (_ & H).
  - reflexivity.
  - simpl. discriminate.
  - repeat constructor.
  - exact H.
Defined.

(** ** Moving through the matches *)

Lemma rem_next k n :
  0 <= k < n -> Z.rem (k + 1) n = if k + 1 =? n then 0 else k + 1.
Proof.
  intros Hk. destruct (Z.eqb_spec (k + 1) n) as [->|Hne].
  - apply Z.rem_same. lia.
  - apply Z.rem_small. lia.
Qed.

Lemma rem_previous k n :
  0 <= k < n -> Z.rem (k - 1 + n) n = if k =? 0 then n - 1 else k - 1.
Proof.
  intros Hk. rewrite Z.rem_mod_nonneg by lia.
  destruct (Z.eqb_spec k 0) as [->|Hne].
  - replace (0 - 1 + n) with (n - 1) by lia. apply Z.mod_small. lia.
  - replace (k - 1 + n) with (k - 1 + 1 * n) by lia.
    rewrite Z_mod_plus_full. apply Z.mod_small. lia.
Qed.

Lemma setCurrentMatchIndex_same st i :
  currentMatchIndex st = i -> setCurrentMatchIndex i st = st.
Proof. destruct st. simpl. by intros ->. Qed.

Lemma setCurrentMatchIndex_twice st i j :
  setCurrentMatchIndex i (setCurrentMatchIndex j st)
  = setCurrentMatchIndex i st.
Proof. done. Qed.

(** X6: with a current match, [handleFindNext] moves to the following
    match and wraps from the last to the first, [handleFindPrevious]
    moves back and wraps from the first to the last; the two undo each
    other, and the index stays an index of the match set. *)
Theorem X6_find_next_previous_cycle (st : App) :
  0 <= currentMatchIndex st < Z.of_nat (length (searchMatches st)) ->
  let n := Z.of_nat (length (searchMatches st)) in
  let k := currentMatchIndex st in
  currentMatchIndex (handleFindNext st) = (if k + 1 =? n then 0 else k + 1)
  /\ currentMatchIndex (handleFindPrevious st)
     = (if k =? 0 then n - 1 else k - 1)
  /\ handleFindPrevious (handleFindNext st) = st
  /\ handleFindNext (handleFindPrevious st) = st.
Proof.
  intros Hk n k.
  assert (Hlen : (length (searchMatches st) =? 0)%nat = false)
    by (apply Nat.eqb_neq; lia).
  assert (Hn : currentMatchIndex (handleFindNext st)
               = if k + 1 =? n then 0 else k + 1).
  { unfold handleFindNext. rewrite Hlen. simpl. by apply rem_next. }
  assert (Hp : currentMatchIndex (handleFindPrevious st)
               = if k =? 0 then n - 1 else k - 1).
  { unfold handleFindPrevious. rewrite Hlen. simpl. by apply rem_previous. }
  split; [done|]. split; [done|]. split.
  - unfold handleFindPrevious at 1.
    replace (searchMatches (handleFindNext st)) with (searchMatches st)
      by (unfold handleFindNext; by rewrite Hlen).
    rewrite Hlen, Hn. unfold handleFindNext. rewrite Hlen.
    rewrite setCurrentMatchIndex_twice. apply setCurrentMatchIndex_same.
    fold n k. destruct (Z.eqb_spec (k + 1) n).
    + rewrite rem_previous by lia. simpl. lia.
    + rewrite rem_previous by lia.
      destruct (Z.eqb_spec (k + 1) 0); lia.
  - unfold handleFindNext at 1.
    replace (searchMatches (handleFindPrevious st)) with (searchMatches st)
      by (unfold handleFindPrevious; by rewrite Hlen).
    rewrite Hlen, Hp. unfold handleFindPrevious. rewrite Hlen.
    rewrite setCurrentMatchIndex_twice. apply setCurrentMatchIndex_same.
    fold n k. destruct (Z.eqb_spec k 0).
    + rewrite rem_next by lia. destruct (Z.eqb_spec (n - 1 + 1) n); lia.
    + rewrite rem_next by lia. destruct (Z.eqb_spec (k - 1 + 1) n); lia.
Qed.

(** X6 on the last of three matches. *)
Lemma X6_find_next_previous_cycle_witness :
  let st := setCurrentMatchIndex 2
              (setSearchMatches [mkMatch 0 1; mkMatch 2 1; mkMatch 4 1]
                                initial) in
  currentMatchIndex (handleFindNext st) = 0
  /\ handleFindPrevious (handleFindNext st) = st.
Proof.
  intros st.
  destruct (X6_find_next_previous_cycle st) as (H1 & _ & H3 & _).
  - simpl. lia.
  - split; [exact H1|exact H3].
Defined.

(** X7: [currentMatchIndex] is always -1 or an index of [searchMatches].
    The search effect sets the first match current when there is one and
    -1 otherwise, and every handler keeps the index valid, so the
    property holds after any sequence of events whose search results are
    those of the effect. *)
Theorem X7_current_match_index_valid (evs : list Event) (st : App) :
  MatchIndexValid st ->
  Forall fromEffect evs ->
  MatchIndexValid (Editor.run evs st).
Proof.
  revert st. induction evs as [|e evs IH]; intros st Hv Hall; [done|].
  apply Forall_cons in Hall as [He Hall]. simpl. apply IH; [|done].
  clear IH Hall evs. unfold MatchIndexValid in *.
  destruct e; simpl; try done.
  - by destruct (handleTabContentChange_search st newContent) as [-> ->].
  - unfold fireTimer. destruct (List.find _ _); [|done].
    unfold timerCallback. destruct (at_ _ _); [|done]. by case_decide.
  - unfold handleUndo. destruct (activeTab st); [|done].
    by destruct (pop _) as [[? ?]|].
  - unfold handleRedo. destruct (activeTab st); [|done].
    by destruct (pop _) as [[? ?]|].
  - unfold handleCloseTab.
    repeat match goal with |- context [if ?b then _ else _] => destruct b end;
      done.
  - unfold handleFileClick. destruct (is_directory item); [done|].
    destruct (0 <=? _); [done|]. by destruct readResult.
  - unfold handleOpenFileResume. destruct result; try done.
    by destruct (0 <=? _).
  - unfold handleSaveFile. destruct (activeTab st); [|done]. by destruct ok.
  - unfold handleToggleEdit. by destruct (activeTab st).
  - unfold handleFindNext.
    destruct (Nat.eqb_spec (length (searchMatches st)) 0) as [|Hn]; [done|].
    simpl. right. destruct Hv as [->|Hv].
    + simpl. rewrite Z.rem_small by lia. lia.
    + rewrite rem_next by lia.
      destruct (Z.eqb_spec (currentMatchIndex st + 1)
                           (Z.of_nat (length (searchMatches st)))); lia.
  - unfold handleFindPrevious.
    destruct (Nat.eqb_spec (length (searchMatches st)) 0) as [|Hn]; [done|].
    simpl. right. destruct Hv as [->|Hv].
    + destruct (decide (length (searchMatches st) = 1%nat)) as [->|H1].
      * replace (Z.rem (-1 - 1 + Z.of_nat 1) (Z.of_nat 1)) with 0
          by reflexivity.
        lia.
      * rewrite Z.rem_small by lia. lia.
    + rewrite rem_previous by lia.
      destruct (Z.eqb_spec (currentMatchIndex st) 0); lia.
  - unfold handleReplace. destruct (activeTab st); [|done].
    destruct (_ || _); [done|]. destruct (at_ _ _) as [m|]; [|done].
    destruct (handleTabContentChange_search
                st (splice (replaceText st) (editorText st) m)) as [Hm Hi].
    destruct (_ <? _); simpl; rewrite ?Hm; [|by left].
    destruct Hv as [Hv|Hv]; [by left|by right].
  - unfold handleReplaceAll. destruct (activeTab st); [|done].
    destruct (_ =? _)%nat; [done|]. by left.
  - rewrite He. destruct (Nat.ltb_spec 0 (length ms)); [right; lia|by left].
Qed.

(** X7 on a search result followed by two steps back. *)
Lemma X7_current_match_index_valid_witness :
  MatchIndexValid
    (Editor.run [SearchResult [mkMatch 0 1; mkMatch 2 1] 0;
                 FindPrevious; FindPrevious] initial).
Proof.
  apply X7_current_match_index_valid.
  - left. reflexivity.
  - repeat constructor.
Defined.

(** ** Undo and redo, continued *)

Lemma setTabs_tabs st : setTabs (tabs st) st = st.
Proof. by destruct st. Qed.

Lemma setTabs_twice ts ts' st : setTabs ts (setTabs ts' st) = setTabs ts st.
Proof. done. Qed.

Lemma handleUndo_step st t top rest :
  activeTab st = Some t -> undoStack t = rest ++ [top] ->
  handleUndo st
  = setTabs (setAt (tabs st) (activeTabIndex st)
               (mkTab (path t) top true (isEditing t) rest
                      (sliceLast 50 (redoStack t ++ [content t])))) st.
Proof. intros Ha Hu. unfold handleUndo. by rewrite Ha, Hu, pop_snoc. Qed.

Lemma handleRedo_step st t top rest :
  activeTab st = Some t -> redoStack t = rest ++ [top] ->
  handleRedo st
  = setTabs (setAt (tabs st) (activeTabIndex st)
               (mkTab (path t) top true (isEditing t)
                      (sliceLast 50 (undoStack t ++ [content t])) rest)) st.
Proof. intros Ha Hu. unfold handleRedo. by rewrite Ha, Hu, pop_snoc. Qed.

(** [n] undos followed by [n] redos, when the undo stack holds at least
    [n] snapshots and the redo stack has room for [n] more. *)
Lemma undo_redo_iter n : forall st t,
  activeTab st = Some t ->
  (n <= length (undoStack t))%nat ->
  (length (undoStack t) <= 50)%nat ->
  (length (redoStack t) + n <= 50)%nat ->
  Nat.iter n handleRedo (Nat.iter n handleUndo st)
  = setTabs (setAt (tabs st) (activeTabIndex st)
               (mkTab (path t) (content t)
                      (if (n =? 0)%nat then isModified t else true)
                      (isEditing t) (undoStack t) (redoStack t))) st
  /\ ((0 < n)%nat ->
      content <$> activeTab (Nat.iter n handleUndo st)
      = rev (undoStack t) !! (n - 1)%nat).
Proof.
  induction n as [|n IH]; intros st t Ha Hn Hu Hr.
  - simpl. split; [|lia]. destruct t. simpl.
    apply activeTab_lookup in Ha as [_ Hl]. unfold setAt.
    by rewrite list_insert_id, setTabs_tabs.
  - destruct (undoStack t) as [|top rest _] eqn:HU using rev_ind;
      [simpl in Hn; lia|].
    rewrite length_app in Hn, Hu. simpl in Hn, Hu.
    pose proof (handleUndo_step st t top rest Ha HU) as Hstep.
    rewrite sliceLast_all in Hstep by (rewrite length_app; simpl; lia).
    set (t1 := mkTab (path t) top true (isEditing t) rest
                     (redoStack t ++ [content t])) in *.
    assert (Ha1 : activeTab (handleUndo st) = Some t1)
      by (rewrite Hstep; by apply (activeTab_setTabs_setAt st t)).
    destruct (IH (handleUndo st) t1 Ha1) as [Hback Hcontent].
    { simpl. lia. }
    { simpl. lia. }
    { simpl. rewrite length_app. simpl. lia. }
    rewrite (Nat.iter_succ_r n handleUndo). split.
    + rewrite Nat.iter_succ, Hback.
      replace (mkTab (path t1) (content t1)
                     (if (n =? 0)%nat then isModified t1 else true)
                     (isEditing t1) (undoStack t1) (redoStack t1))
        with t1 by (subst t1; simpl; by destruct (n =? 0)%nat).
      pose proof Ha1 as [_ Hl1]%activeTab_lookup.
      unfold setAt at 1. rewrite list_insert_id, setTabs_tabs by done.
      rewrite (handleRedo_step _ t1 (content t) (redoStack t) Ha1 eq_refl).
      rewrite Hstep. simpl. unfold setAt.
      rewrite list_insert_insert_eq.
      by rewrite sliceLast_all by (rewrite length_app; simpl; lia).
    + intros _. rewrite rev_unit. destruct n as [|n].
      * simpl. by rewrite Ha1.
      * rewrite Hcontent by lia. simpl. by rewrite Nat.sub_0_r.
Qed.

(** X8: on a tab whose undo stack holds at least [n] snapshots (and at
    most 50) and whose redo stack has room for [n] more, [n] undos put
    the [n]-th snapshot from the top into the content, and [n] redos
    right after them bring back the content and both stacks exactly; the
    tab is marked modified. *)
Theorem X8_undo_n_then_redo_n (n : nat) (st : App) (t : Tab) :
  activeTab st = Some t ->
  (0 < n <= length (undoStack t))%nat ->
  (length (undoStack t) <= 50)%nat ->
  (length (redoStack t) + n <= 50)%nat ->
  content <$> activeTab (Nat.iter n handleUndo st)
  = rev (undoStack t) !! (n - 1)%nat
  /\ activeTab (Nat.iter n handleRedo (Nat.iter n handleUndo st))
     = Some (mkTab (path t) (content t) true (isEditing t)
                   (undoStack t) (redoStack t))
  /\ tabs (Nat.iter n handleRedo (Nat.iter n handleUndo st))
     = setAt (tabs st) (activeTabIndex st)
             (mkTab (path t) (content t) true (isEditing t)
                    (undoStack t) (redoStack t)).
Proof.
  intros Ha Hn Hu Hr.
  destruct (undo_redo_iter n st t Ha ltac:(lia) Hu Hr) as [Hback Hcontent].
  destruct (Nat.eqb_spec n 0) as [|_]; [lia|].
  split; [apply Hcontent; lia|]. rewrite Hback.
  split; [by apply (activeTab_setTabs_setAt st t)|done].
Qed.

(** X8 on two undos and two redos over three snapshots. *)
Lemma X8_undo_n_then_redo_n_witness :
  let t := mkTab "a.txt" (js "abcd") true true [js "a"; js "ab"; js "abc"] [] in
  let st := setActiveTabIndex 0 (setTabs [t] initial) in
  content <$> activeTab (Nat.iter 2 handleUndo st) = Some (js "ab")
  /\ activeTab (Nat.iter 2 handleRedo (Nat.iter 2 handleUndo st)) = Some t.
Proof.
  intros t st.
  destruct (X8_undo_n_then_redo_n 2 st t) as (H1 & H2 & _).
  - reflexivity.
  - simpl. lia.
  - simpl. lia.
  - simpl. lia.
  - split; [exact H1|exact H2].
Defined.

(** X9: on a tab whose redo stack is not empty, [handleRedo] puts the
    top of the redo stack into [content]; [handleUndo] run right after
    it puts back the content that was there before the redo, and the
    redo stack is again the (at most 50 last) entries it had. *)
Theorem X9_redo_then_undo (st : App) (t : Tab) :
  activeTab st = Some t ->
  redoStack t <> [] ->
  exists top,
    last (redoStack t) = Some top
    /\ content <$> activeTab (handleRedo st) = Some top
    /\ content <$> activeTab (handleUndo (handleRedo st)) = Some (content t)
    /\ redoStack <$> activeTab (handleUndo (handleRedo st))
       = Some (sliceLast 50 (redoStack t)).
Proof.
  intros Ha Hne.
  destruct (redoStack t) as [|a u] eqn:Hu using rev_ind; [done|]. clear IHu.
  exists a. split; [apply last_snoc|].
  pose proof (handleRedo_active st t a u Ha Hu) as Hredo.
  split; [by rewrite Hredo|].
  assert (Hundo := handleUndo_active (handleRedo st) _ (content t)
                     (sliceLast 49 (undoStack t)) Hredo).
  simpl in Hundo. rewrite Hundo by apply (sliceLast_snoc 49).
  simpl. done.
Qed.

(** X9 on a tab with one redo entry. *)
Lemma X9_redo_then_undo_witness :
  let st := setActiveTabIndex 0
              (setTabs [mkTab "a.txt" (js "a") true true [] [js "ab"]]
                       initial) in
  exists top,
    last [js "ab"] = Some top
    /\ content <$> activeTab (handleRedo st) = Some top
    /\ content <$> activeTab (handleUndo (handleRedo st)) = Some (js "a")
    /\ redoStack <$> activeTab (handleUndo (handleRedo st))
       = Some (sliceLast 50 [js "ab"]).
Proof.
  intros st.
  apply (X9_redo_then_undo st (mkTab "a.txt" (js "a") true true [] [js "ab"])).
  - reflexivity.
  - simpl. discriminate.
Defined.

(** * Further properties of the terminal *)

(** ** Unmounting a terminal *)

Section TerminalLifecycleFacts.
Import TerminalSession TerminalLifecycle.

Lemma lifeRun_app evs1 evs2 l :
  lifeRun (evs1 ++ evs2) l = lifeRun evs2 (lifeRun evs1 l).
Proof. apply fold_left_app. Qed.

Lemma closes_app inv1 inv2 w r r' w' :
  closes (mkSession r (inv1 ++ inv2) w)
  = closes (mkSession r' inv1 w') ++ closes (mkSession r' inv2 w').
Proof. unfold closes. simpl. apply omap_app. Qed.

Lemma dataHandler_closes d s : closes (dataHandler d s) = closes s.
Proof.
  unfold dataHandler. destruct (backendIdRef s) as [id|]; [|done].
  destruct (truthy id); [|done].
  rewrite (closes_app _ _ _ _ (backendIdRef s) (warned s)).
  unfold closes at 2. simpl. by rewrite app_nil_r.
Qed.

(** Without a cleanup no [close_terminal] is issued and the component
    stays as mounted as it was. *)
Lemma lifeRun_no_cleanup evs l :
  forallb (fun e => negb (isCleanup e)) evs = true ->
  closes (session (lifeRun evs l)) = closes (session l)
  /\ unmounted (lifeRun evs l) = unmounted l.
Proof.
  revert l. induction evs as [|e evs IH]; intros l Hev; [done|].
  simpl in Hev. apply andb_true_iff in Hev as [He Hev]. simpl.
  destruct (IH (lifeStep l e) Hev) as [-> ->].
  destruct e; simpl in *; try done.
  destruct (unmounted l) eqn:Hu; [done|]. simpl. split; [|done].
  apply dataHandler_closes.
Qed.

(** Once unmounted, nothing is written any more. *)
Lemma lifeRun_unmounted evs l :
  unmounted l = true ->
  forallb (fun e => negb (isCleanup e)) evs = true ->
  invoked (session (lifeRun evs l)) = invoked (session l).
Proof.
  revert l. induction evs as [|e evs IH]; intros l Hu Hev; [done|].
  simpl in Hev. apply andb_true_iff in Hev as [He Hev]. simpl.
  destruct e; simpl in *; try done.
  - by rewrite IH.
  - by rewrite IH.
  - rewrite Hu. by apply IH.
Qed.

End TerminalLifecycleFacts.

(** X10: the cleanup of a [Terminal] asks the backend to close the
    terminal exactly when the backend id has resolved (to a truthy id)
    before the cleanup runs, and then once, with that id.  A component
    unmounted while the spawn is still pending never issues
    [close_terminal], also when the id resolves afterwards; and after
    the cleanup no backend call of any kind is issued. *)
Theorem X10_cleanup_closes_resolved_terminal
    (shellType : string) (cols rows : Z)
    (pre post : list TerminalLifecycle.LifeEvent) :
  forallb (fun e => negb (TerminalLifecycle.isCleanup e)) pre = true ->
  forallb (fun e => negb (TerminalLifecycle.isCleanup e)) post = true ->
  let before := TerminalLifecycle.lifeRun pre
                  (TerminalLifecycle.mounted shellType cols rows) in
  let final := TerminalLifecycle.lifeRun
                 (pre ++ TerminalLifecycle.Cleanup :: post)
                 (TerminalLifecycle.mounted shellType cols rows) in
  let closing :=
    match TerminalSession.backendIdRef (TerminalLifecycle.session before) with
    | Some id => if TerminalSession.truthy id then [id] else []
    | None => []
    end in
  TerminalLifecycle.closes (TerminalLifecycle.session final) = closing
  /\ TerminalSession.invoked (TerminalLifecycle.session final)
     = TerminalSession.invoked (TerminalLifecycle.session before)
       ++ map TerminalSession.close_terminal closing.
Proof.
  intros Hpre Hpost before final closing. subst final.
  rewrite lifeRun_app. fold before.
  change (TerminalLifecycle.lifeRun (TerminalLifecycle.Cleanup :: post) before)
    with (TerminalLifecycle.lifeRun post
            (TerminalLifecycle.lifeStep before TerminalLifecycle.Cleanup)).
  set (after := TerminalLifecycle.lifeStep before TerminalLifecycle.Cleanup).
  destruct (lifeRun_no_cleanup pre
              (TerminalLifecycle.mounted shellType cols rows) Hpre)
    as [Hc _]. fold before in Hc. simpl in Hc.
  destruct (lifeRun_no_cleanup post after Hpost) as [Hc' _].
  rewrite Hc'. rewrite (lifeRun_unmounted post after eq_refl Hpost).
  subst after closing. simpl.
  destruct (TerminalSession.backendIdRef (TerminalLifecycle.session before))
    as [id|]; [|by rewrite app_nil_r].
  destruct (TerminalSession.truthy id); [|by rewrite app_nil_r].
  simpl. split; [|done].
  rewrite (closes_app _ _ _ _ None 0%nat). unfold TerminalLifecycle.closes at 1.
  unfold TerminalLifecycle.closes in Hc. simpl in *. by rewrite Hc.
Qed.

(** X10 on a terminal unmounted while spawning, whose id resolves
    afterwards: the backend is never asked to close it. *)
Lemma X10_cleanup_closes_resolved_terminal_witness :
  TerminalLifecycle.closes
    (TerminalLifecycle.session
       (TerminalLifecycle.lifeRun
          ([TerminalLifecycle.Data (js "l")]
           ++ TerminalLifecycle.Cleanup
           :: [TerminalLifecycle.Resolved (TerminalSession.IdString "t1");
               TerminalLifecycle.ListenersReady])
          (TerminalLifecycle.mounted "bash" 80 24)))
  = [].
Proof.
  destruct (X10_cleanup_closes_resolved_terminal "bash" 80 24
              [TerminalLifecycle.Data (js "l")]
              [TerminalLifecycle.Resolved (TerminalSession.IdString "t1");
               TerminalLifecycle.ListenersReady]) as [H _].
  - reflexivity.
  - reflexivity.
  - exact H.
Defined.

(** ** Terminal tabs *)

Section TerminalTabsFacts.
Import TerminalPanel TerminalTabs.

Lemma remainingAfter_idem id0 ts :
  remainingAfter id0 (remainingAfter id0 ts) = remainingAfter id0 ts.
Proof.
  induction ts as [|t ts IH]; simpl; [done|].
  destruct (String.eqb (id t) id0) eqn:He; simpl; [done|].
  by rewrite He, IH.
Qed.

Lemma remainingAfter_fresh id0 ts :
  id0 ∉ map id ts -> remainingAfter id0 ts = ts.
Proof.
  induction ts as [|t ts IH]; simpl; [done|].
  intros [Hne Hrest]%not_elem_of_cons.
  destruct (String.eqb_spec (id t) id0); [congruence|]. simpl.
  by rewrite IH.
Qed.

Lemma remainingAfter_app id0 ts1 ts2 :
  remainingAfter id0 (ts1 ++ ts2)
  = remainingAfter id0 ts1 ++ remainingAfter id0 ts2.
Proof. apply List.filter_app. Qed.

Lemma remainingAfter_elem id0 ts a :
  a ∈ map id (remainingAfter id0 ts) <-> a ∈ map id ts /\ a <> id0.
Proof.
  induction ts as [|t ts IH]; simpl.
  - split; [by intros ?%elem_of_nil|by intros [?%elem_of_nil _]].
  - destruct (String.eqb_spec (id t) id0) as [He|Hne]; simpl.
    + rewrite IH, elem_of_cons. split; [tauto|].
      intros [[->|?] ?]; [congruence|tauto].
    + rewrite !elem_of_cons, IH. split; [|tauto].
      intros [->|[? ?]]; tauto.
Qed.

Lemma closeTerminal_not_active id0 p :
  isActive (closeTerminal id0 p) id0 = false.
Proof.
  unfold closeTerminal, isActive. simpl.
  destruct (activeTerminal p) as [a|]; [|done].
  destruct (String.eqb_spec a id0) as [->|Hne].
  - destruct (remainingAfter id0 (terminals p)) as [|r rest] eqn:Hr; [done|].
    destruct (remainingAfter_head _ _ _ _ Hr) as (_ & _ & _ & _ & Hne).
    by apply String.eqb_neq.
  - by apply String.eqb_neq.
Qed.

End TerminalTabsFacts.

(** X11: [closeTerminal] is idempotent: closing an id a second time
    changes neither the tab list nor the active id. *)
Theorem X11_closeTerminal_idempotent (id0 : string) (p : TerminalPanel.Panel) :
  TerminalPanel.closeTerminal id0 (TerminalPanel.closeTerminal id0 p)
  = TerminalPanel.closeTerminal id0 p.
Proof.
  pose proof (closeTerminal_not_active id0 p) as Hna.
  unfold TerminalPanel.closeTerminal at 1. rewrite Hna.
  unfold TerminalPanel.closeTerminal at 1 3. simpl.
  by rewrite remainingAfter_idem.
Qed.

(** X12: after any sequence of spawning terminals, closing terminals and
    clicking on tabs, the active id is [null] or the id of a terminal in
    the tab list. *)
Theorem X12_active_terminal_listed (evs : list TerminalTabs.PanelEvent) :
  TerminalTabs.ActiveListed
    (TerminalTabs.panelRun evs TerminalTabs.emptyPanel).
Proof.
  assert (H : forall p, TerminalTabs.ActiveListed p ->
                        TerminalTabs.ActiveListed (TerminalTabs.panelRun evs p)).
  { induction evs as [|e evs IH]; intros p Hp; [done|].
    simpl. apply IH. clear IH. unfold TerminalTabs.ActiveListed in *.
    destruct e; simpl.
    - rewrite map_app. apply elem_of_app. right. simpl. left.
    - unfold TerminalPanel.isActive.
      destruct (TerminalPanel.activeTerminal p) as [a|]; [|done].
      destruct (String.eqb_spec a id0) as [->|Hne].
      + destruct (TerminalPanel.remainingAfter id0 (TerminalPanel.terminals p));
          [done|]. simpl. left.
      + by apply remainingAfter_elem.
    - destruct (TerminalPanel.terminals p !! k) as [t|] eqn:Hk; [|done].
      simpl. apply list_elem_of_fmap_2, list_elem_of_lookup. by exists k. }
  by apply H.
Qed.

(** X13: closing a terminal right after it was spawned, when its id is
    new, gives back the tab list of before the spawn; the active id is
    then that of the first tab (or [null] without tabs), not the id that
    was active before the spawn. *)
Theorem X13_spawn_then_close
    (now : nat) (d s : option string) (p : TerminalPanel.Panel) :
  let newId := ("term-" ++ TerminalTabs.decimal now)%string in
  newId ∉ map TerminalPanel.id (TerminalPanel.terminals p) ->
  TerminalPanel.closeTerminal newId (TerminalTabs.spawnTerminal now d s p)
  = TerminalPanel.mkPanel
      (TerminalPanel.terminals p)
      (head (map TerminalPanel.id (TerminalPanel.terminals p))).
Proof.
  intros newId Hfresh. unfold TerminalPanel.closeTerminal.
  unfold TerminalTabs.spawnTerminal. fold newId. simpl.
  unfold TerminalPanel.isActive. simpl. rewrite String.eqb_refl.
  rewrite remainingAfter_app, (remainingAfter_fresh _ _ Hfresh). simpl.
  rewrite String.eqb_refl. simpl. rewrite app_nil_r.
  by destruct (TerminalPanel.terminals p).
Qed.

(** X13 on two tabs with the second one active. *)
Lemma X13_spawn_then_close_witness :
  let p := TerminalPanel.mkPanel
             [TerminalPanel.mkTermTab "term-1" (Some "bash"%string) "bash - 1";
              TerminalPanel.mkTermTab "term-2" (Some "bash"%string) "bash - 2"]
             (Some "term-2"%string) in
  TerminalPanel.closeTerminal "term-3"
    (TerminalTabs.spawnTerminal 3 (Some "bash"%string) None p)
  = TerminalPanel.mkPanel (TerminalPanel.terminals p) (Some "term-1"%string).
Proof.
  intros p. apply (X13_spawn_then_close 3 (Some "bash"%string) None p).
  vm_compute. intros H. repeat (apply elem_of_cons in H as [H|H]; [discriminate|]).
  by apply elem_of_nil in H.
Defined.

(** X14: a close that comes from the backend runs the [closeTerminal] of
    the render in which that terminal was mounted.  If terminal x is
    spawned, then terminal y, and the backend then reports x closed, the
    tab list becomes the one of before x was spawned: the tab of y is
    dropped with it, while a click on the close button of x keeps y. *)
Theorem X14_backend_close_drops_later_terminals
    (nowX nowY : nat) (d s d' s' : option string) (p0 : TerminalPanel.Panel) :
  let x := ("term-" ++ TerminalTabs.decimal nowX)%string in
  let y := ("term-" ++ TerminalTabs.decimal nowY)%string in
  let p1 := TerminalTabs.spawnTerminal nowX d s p0 in
  let p2 := TerminalTabs.spawnTerminal nowY d' s' p1 in
  x ∉ map TerminalPanel.id (TerminalPanel.terminals p0) ->
  x <> y ->
  TerminalPanel.terminals (TerminalTabs.closeTerminalFrom p1 x p2)
  = TerminalPanel.terminals p0
  /\ map TerminalPanel.id
         (TerminalPanel.terminals (TerminalPanel.closeTerminal x p2))
     = map TerminalPanel.id (TerminalPanel.terminals p0) ++ [y].
Proof.
  intros x y p1 p2 Hfresh Hxy. subst p1 p2.
  unfold TerminalTabs.closeTerminalFrom, TerminalPanel.closeTerminal,
    TerminalTabs.spawnTerminal. fold x y. clearbody x y. simpl.
  rewrite !remainingAfter_app, (remainingAfter_fresh _ _ Hfresh). simpl.
  rewrite String.eqb_refl. simpl.
  destruct (String.eqb_spec y x); [congruence|]. simpl.
  split; [by rewrite app_nil_r|].
  by rewrite app_nil_r, map_app.
Qed.

(** X14 on an empty panel. *)
Lemma X14_backend_close_drops_later_terminals_witness :
  let p1 := TerminalTabs.spawnTerminal 1 (Some "bash"%string) None
              TerminalTabs.emptyPanel in
  let p2 := TerminalTabs.spawnTerminal 2 (Some "bash"%string) None p1 in
  TerminalPanel.terminals (TerminalTabs.closeTerminalFrom p1 "term-1" p2) = [].
Proof.
  intros p1 p2.
  destruct (X14_backend_close_drops_later_terminals
              1 2 (Some "bash"%string) None (Some "bash"%string) None
              TerminalTabs.emptyPanel) as [H _].
  - simpl. apply not_elem_of_nil.
  - vm_compute. discriminate.
  - exact H.
Defined.

(** * Further properties of opening, editing and searching *)

(** ** Opening a path that is not open yet *)



(** ** Edit mode *)

(** X16: toggling the edit mode twice gives back the state exactly. *)
Theorem X16_toggle_edit_twice (st : App) :
  handleToggleEdit (handleToggleEdit st) = st.
Proof.
  unfold handleToggleEdit at 2.
  destruct (activeTab st) as [a|] eqn:Ha.
  - unfold handleToggleEdit.
    rewrite (activeTab_setTabs_setAt st a _ Ha). simpl.
    rewrite setTabs_twice, negb_involutive. unfold setAt.
    rewrite list_insert_insert_eq.
    apply activeTab_lookup in Ha as [_ Hl].
    destruct a. simpl. rewrite list_insert_id by done. apply setTabs_tabs.
  - unfold handleToggleEdit. by rewrite Ha.
Qed.

(** ** Undo and redo change one tab only *)

(** X17: [handleUndo] and [handleRedo] touch nothing but the active tab:
    the other tabs, the order and the paths of the tabs, the active
    index, the timers and the search state stay as they are; without an
    active tab or with an empty stack they change nothing at all. *)
Theorem X17_undo_redo_frame (st : App) :
  (forall h, h = handleUndo \/ h = handleRedo ->
     activeTabIndex (h st) = activeTabIndex st
     /\ map path (tabs (h st)) = map path (tabs st)
     /\ (forall j, j <> activeTabIndex st -> tabAt (h st) j = tabAt st j)
     /\ timerFields (h st) = timerFields st
     /\ searchMatches (h st) = searchMatches st
     /\ currentMatchIndex (h st) = currentMatchIndex st)
  /\ (activeTab st = None -> handleUndo st = st /\ handleRedo st = st)
  /\ (forall t, activeTab st = Some t ->
        (undoStack t = [] -> handleUndo st = st)
        /\ (redoStack t = [] -> handleRedo st = st)).
Proof.
  split; [|split].
  - assert (Hframe : forall a t',
              activeTab st = Some a -> path t' = path a ->
              let st' := setTabs (setAt (tabs st) (activeTabIndex st) t') st in
              activeTabIndex st' = activeTabIndex st
              /\ map path (tabs st') = map path (tabs st)
              /\ (forall j, j <> activeTabIndex st -> tabAt st' j = tabAt st j)
              /\ timerFields st' = timerFields st
              /\ searchMatches st' = searchMatches st
              /\ currentMatchIndex st' = currentMatchIndex st).
    { intros a t' Ha Hp st'. apply activeTab_lookup in Ha as [H0 Hl].
      repeat split.
      - subst st'. simpl. unfold setAt.
        change (map path) with (fmap (M:=list) path).
        rewrite list_fmap_insert, list_insert_id; [done|].
        rewrite list_lookup_fmap, Hl. simpl. by rewrite Hp.
      - intros j Hj. unfold tabAt. subst st'. simpl.
        by apply at_setAt_ne. }
    intros h [-> | ->].
    + unfold handleUndo. destruct (activeTab st) as [a|] eqn:Ha; [|done].
      destruct (pop _) as [[prev rest]|]; [|done]. by apply (Hframe a).
    + unfold handleRedo. destruct (activeTab st) as [a|] eqn:Ha; [|done].
      destruct (pop _) as [[next rest]|]; [|done]. by apply (Hframe a).
  - intros Ha. unfold handleUndo, handleRedo. by rewrite Ha.
  - intros t Ha. unfold handleUndo, handleRedo. rewrite Ha.
    split; intros ->; done.
Qed.

(** X17 on a freshly opened tab: there is nothing to undo. *)
Lemma X17_undo_redo_frame_witness :
  let st := Editor.run [FileClick (mkFileItem "a.txt" false) (Some (js "a"))]
                       initial in
  handleUndo st = st.
Proof.
  intros st.
  destruct (X17_undo_redo_frame st) as (_ & _ & H).
  destruct (H (newTab "a.txt" (js "a")) eq_refl) as [Hu _].
  apply Hu. reflexivity.
Defined.

(** ** Replacing the current match *)

(** X18: with a tab active and a current match, [handleReplace] makes
    one edit that splices the replacement over that match; the index
    stays where it was unless the match was the last one, in which case
    it becomes -1.  With one match only, replacing it is the same as
    replacing all.  Without a valid current index nothing happens. *)
Theorem X18_replace_current_match (st : App) (t : Tab) :
  activeTab st = Some t ->
  (forall m,
     at_ (searchMatches st) (currentMatchIndex st) = Some m ->
     let n := Z.of_nat (length (searchMatches st)) in
     handleReplace st
     = setCurrentMatchIndex
         (if currentMatchIndex st <? n - 1 then currentMatchIndex st else -1)
         (handleTabContentChange (splice (replaceText st) (content t) m) st)
     /\ content <$> activeTab (handleReplace st)
        = Some (splice (replaceText st) (content t) m)
     /\ (searchMatches st = [m] -> handleReplace st = handleReplaceAll st))
  /\ (at_ (searchMatches st) (currentMatchIndex st) = None ->
      handleReplace st = st).
Proof.
  intros Ha. split.
  - intros m Hm n.
    pose proof Hm as [H0 Hl]%at_Some.
    pose proof (lookup_lt_Some _ _ _ Hl) as Hlt.
    assert (Hr : handleReplace st
                 = setCurrentMatchIndex
                     (if currentMatchIndex st <? n - 1
                      then currentMatchIndex st else -1)
                     (handleTabContentChange
                        (splice (replaceText st) (content t) m) st)).
    { unfold handleReplace. rewrite Ha, Hm, (editorText_active st t Ha).
      destruct (Z.ltb_spec (currentMatchIndex st) 0); [lia|].
      destruct (Z.leb_spec (Z.of_nat (length (searchMatches st)))
                           (currentMatchIndex st)); [lia|].
      simpl. fold n. by destruct (_ <? _). }
    split; [done|]. split.
    + rewrite Hr.
      destruct (handleTabContentChange_tabs
                  st t (splice (replaceText st) (content t) m) Ha)
        as [Htabs Hidx].
      unfold activeTab in *. simpl. rewrite Htabs, Hidx.
      by rewrite (at_setAt _ _ _ _ Ha).
    + intros Hone. rewrite Hr. unfold handleReplaceAll.
      rewrite Ha, (editorText_active st t Ha). subst n.
      rewrite Hone in *. simpl in *.
      destruct (Z.ltb_spec (currentMatchIndex st) (Z.of_nat 1 - 1)); [lia|].
      reflexivity.
  - intros Hnone. unfold handleReplace. rewrite Ha, Hnone.
    by destruct (_ || _).
Qed.

(** X18 on the second of two matches. *)
Lemma X18_replace_current_match_witness :
  let st := Editor.run
              [FileClick (mkFileItem "a.txt" false) (Some (js "a-a"));
               SearchInputs true (js "a") (js "bb") true false;
               SearchResult [mkMatch 0 1; mkMatch 2 1] 0; FindNext] initial in
  content <$> activeTab (handleReplace st) = Some (js "a-bb").
Proof.
  intros st.
  destruct (X18_replace_current_match st (newTab "a.txt" (js "a-a")) eq_refl)
    as (H & _).
  destruct (H (mkMatch 2 1) eq_refl) as (_ & Hc & _).
  exact Hc.
Defined.

(** ** Search: nothing to search, patterns that fail, matches that are empty *)

(** X19: the search effect clears the match set and sets the current
    index to -1, without running any loop and without any other change,
    when the query is empty, the buffer is empty or missing, the panel is
    hidden, or (in regex mode) the pattern does not compile. *)
Theorem X19_search_cleared
    (RegExp : Type) (newRegExp : jsstr -> string -> option RegExp)
    (exec : RegExp -> jsstr -> Z -> option (Z * jsstr))
    (fuel : nat) (st : App) :
  searchQuery st = [] \/ editorText st = [] \/ showSearch st = false
  \/ (searchRegex st = true
      /\ newRegExp (searchQuery st) (regexFlags (searchCaseSensitive st))
         = None) ->
  searchEffect RegExp newRegExp exec fuel st
  = Some (setCurrentMatchIndex (-1) (setSearchMatches [] st))
  /\ (activeTab st = None -> editorText st = []).
Proof.
  intros H. split; [|intros Ha; unfold editorText; by rewrite Ha].
  unfold searchEffect, computeMatches.
  destruct H as [-> | [-> | [-> | [-> ->]]]]; simpl; try done.
  - by rewrite orb_true_r.
  - by rewrite orb_true_r.
  - by destruct (_ || _).
Qed.

(** X19 on a pattern that the engine rejects. *)
Lemma X19_search_cleared_witness :
  let st := setSearchInputs true (js "(") [] false true
              (Editor.run [FileClick (mkFileItem "a.txt" false)
                                     (Some (js "a(b"))] initial) in
  searchEffect unit (fun _ _ => None) (fun _ _ _ => None) 0 st
  = Some (setCurrentMatchIndex (-1) (setSearchMatches [] st)).
Proof.
  intros st.
  destruct (X19_search_cleared unit (fun _ _ => None) (fun _ _ _ => None)
              0%nat st) as [H _].
  - right. right. right. split; reflexivity.
  - exact H.
Defined.

(** X20: in regex mode, when the pattern compiles and the engine answers
    the first [exec] with an empty match at position 0, [lastIndex] does
    not move and the loop of the search effect never ends: no number of
    iterations yields a match set. *)
Theorem X20_empty_regex_match_never_ends
    (RegExp : Type) (newRegExp : jsstr -> string -> option RegExp)
    (exec : RegExp -> jsstr -> Z -> option (Z * jsstr))
    (st : App) (regex : RegExp) :
  searchRegex st = true ->
  showSearch st = true ->
  searchQuery st <> [] ->
  editorText st <> [] ->
  newRegExp (searchQuery st) (regexFlags (searchCaseSensitive st))
  = Some regex ->
  exec regex (editorText st) 0 = Some (0, []) ->
  forall fuel, searchEffect RegExp newRegExp exec fuel st = None.
Proof.
  intros Hre Hshow Hq Ht Hnew Hexec fuel.
  unfold searchEffect, computeMatches. rewrite Hre, Hshow, Hnew.
  rewrite (regexLoop_empty_match exec regex _ 0 Hexec).
  destruct (searchQuery st); [done|]. destruct (editorText st); done.
Qed.

(** X20 on an engine that matches the empty string everywhere. *)
Lemma X20_empty_regex_match_never_ends_witness :
  let st := setSearchInputs true (js "x*") [] false true
              (Editor.run [FileClick (mkFileItem "a.txt" false)
                                     (Some (js "abc"))] initial) in
  searchEffect unit (fun _ _ => Some tt)
               (fun _ _ lastIndex => Some (lastIndex, [])) 1000 st
  = None.
Proof.
  intros st.
  apply (X20_empty_regex_match_never_ends unit (fun _ _ => Some tt)
           (fun _ _ lastIndex => Some (lastIndex, [])) st tt).
  - reflexivity.
  - reflexivity.
  - simpl. discriminate.
  - simpl. discriminate.
  - reflexivity.
  - reflexivity.
Defined.







(** * Keyboard shortcuts *)

Section KeyboardFacts.
Import Keyboard.

Lemma prevented_if (b : bool) (x y : Outcome) :
  prevented (if b then x else y) = if b then prevented x else prevented y.
Proof. by destruct b. Qed.

(** X22: [handleKeyDown] calls [preventDefault] exactly on the chords it
    reacts to; on every other key event it changes nothing and does not
    save. *)
Theorem X22_recognized_chords_prevent_default
    (seen : bool) (e : KeyEvent) (st : App) :
  prevented (handleKeyDown seen e st) = recognized seen e
  /\ (recognized seen e = false ->
      state (handleKeyDown seen e st) = st
      /\ saveCalled (handleKeyDown seen e st) = false).
Proof.
  destruct e as [k c m s]. split.
  - unfold handleKeyDown, recognized, ctrlOrMeta. cbv zeta.
    rewrite !prevented_if. simpl.
    generalize (String.eqb k "Escape" && seen), (String.eqb k "f"),
      (String.eqb k "h"), (String.eqb k "z"), (String.eqb k "y"),
      (String.eqb k "w"), (String.eqb k "Tab"), (isDigitKey k),
      (String.eqb k "s").
    intros b1 b2 b3 b4 b5 b6 b7 b8 b9.
    destruct b1, c, m, s, b2, b3, b4, b5, b6, b7, b8, b9; reflexivity.
  - unfold recognized, ctrlOrMeta. simpl.
    intros [[HEsc Hcom]%orb_false_iff HTab]%orb_false_iff.
    unfold handleKeyDown, ctrlOrMeta. simpl. rewrite HEsc.
    assert (HTab' : c = false \/ String.eqb k "Tab" = false)
      by (destruct c; [right; exact HTab|by left]).
    clear HTab.
    destruct (c || m) eqn:Hcm; simpl in Hcom.
    + repeat (apply orb_false_iff in Hcom as [Hcom ?]).
      repeat match goal with H : _ = false |- _ => rewrite H; clear H end.
      simpl. destruct HTab' as [-> | ->]; simpl; [done|].
      rewrite !andb_false_r. done.
    + apply orb_false_iff in Hcm as [-> ->]. simpl. done.
Qed.

(** X22 on a plain letter. *)
Lemma X22_recognized_chords_prevent_default_witness :
  state (handleKeyDown false (mkKey "a" false false false) initial) = initial.
Proof.
  destruct (X22_recognized_chords_prevent_default
              false (mkKey "a" false false false) initial) as [_ H].
  destruct (H eq_refl) as [Hs _]. exact Hs.
Defined.

Lemma setActiveTabIndex_same st i :
  activeTabIndex st = i -> setActiveTabIndex i st = st.
Proof. destruct st. simpl. by intros ->. Qed.

(** X23: with tabs open and a valid active index, Ctrl+Tab moves to the
    next tab and wraps from the last to the first, Ctrl+Shift+Tab moves
    to the previous tab and wraps from the first to the last; one after
    the other they give back the state, and nothing but the active index
    changes. *)
Theorem X23_ctrl_tab_cycles (seen m m' : bool) (st : App) :
  0 <= activeTabIndex st < Z.of_nat (length (tabs st)) ->
  let n := Z.of_nat (length (tabs st)) in
  let k := activeTabIndex st in
  let next := handleKeyDown seen (mkKey "Tab" true m false) st in
  state next = setActiveTabIndex (if k + 1 =? n then 0 else k + 1) st
  /\ prevented next = true
  /\ state (handleKeyDown seen (mkKey "Tab" true m' true) st)
     = setActiveTabIndex (if k =? 0 then n - 1 else k - 1) st
  /\ state (handleKeyDown seen (mkKey "Tab" true m' true) (state next)) = st.
Proof.
  intros Hk n k next.
  assert (Hpos : (0 <? n) = true) by (apply Z.ltb_lt; lia).
  assert (Hnext : state next
                  = setActiveTabIndex (if k + 1 =? n then 0 else k + 1) st).
  { subst next. unfold handleKeyDown, ctrlOrMeta. simpl. fold n.
    rewrite Hpos. destruct m; simpl; by rewrite rem_next. }
  split; [done|]. split.
  { subst next. unfold handleKeyDown, ctrlOrMeta. simpl. by destruct m. }
  assert (Hprev : forall st0,
            0 <= activeTabIndex st0 < Z.of_nat (length (tabs st0)) ->
            state (handleKeyDown seen (mkKey "Tab" true m' true) st0)
            = setActiveTabIndex
                (if activeTabIndex st0 =? 0
                 then Z.of_nat (length (tabs st0)) - 1
                 else activeTabIndex st0 - 1) st0).
  { intros st0 H0. unfold handleKeyDown, ctrlOrMeta. simpl.
    destruct (Z.ltb_spec 0 (Z.of_nat (length (tabs st0)))); [|lia].
    destruct m'; simpl; by rewrite rem_previous. }
  split; [by apply Hprev|].
  rewrite Hnext, Hprev.
  - etransitivity; [|apply (setActiveTabIndex_same st k eq_refl)].
    unfold setActiveTabIndex. simpl. fold n k. f_equal.
    destruct (Z.eqb_spec (k + 1) n); simpl.
    + lia.
    + destruct (Z.eqb_spec (k + 1) 0); lia.
  - simpl. fold n k. destruct (Z.eqb_spec (k + 1) n); lia.
Qed.

(** X23 on the last of two tabs. *)
Lemma X23_ctrl_tab_cycles_witness :
  let st := Editor.run
              [FileClick (mkFileItem "a.txt" false) (Some (js "a"));
               FileClick (mkFileItem "b.txt" false) (Some (js "b"))] initial in
  activeTabIndex (state (handleKeyDown false (mkKey "Tab" true false false) st))
  = 0.
Proof.
  intros st.
  destruct (X23_ctrl_tab_cycles false false false st) as (H & _).
  - simpl. lia.
  - rewrite H. reflexivity.
Defined.

(** X24: Ctrl (or Cmd) with a digit key 1..9 activates the tab of that
    number when it exists and changes nothing otherwise; the default
    action is prevented in both cases. *)
Theorem X24_ctrl_digit_selects_tab
    (seen c m s : bool) (d : nat) (st : App) :
  (1 <= d <= 9)%nat ->
  c || m = true ->
  let e := mkKey (String (ascii_of_nat (48 + d)) "") c m s in
  state (handleKeyDown seen e st)
  = (if (d <=? length (tabs st))%nat
     then setActiveTabIndex (Z.of_nat d - 1) st else st)
  /\ prevented (handleKeyDown seen e st) = true.
Proof.
  intros Hd Hcm e.
  assert (Hcases : (d = 1 \/ d = 2 \/ d = 3 \/ d = 4 \/ d = 5 \/ d = 6
                    \/ d = 7 \/ d = 8 \/ d = 9)%nat) by lia.
  assert (Hlt : forall z : Z,
            (z <? Z.of_nat (length (tabs st)))
            = (Z.to_nat (z + 1) <=? length (tabs st))%nat \/ z < 0).
  { intros z. destruct (Z.lt_ge_cases z 0); [by right|left].
    destruct (Z.ltb_spec z (Z.of_nat (length (tabs st))));
      destruct (Nat.leb_spec (Z.to_nat (z + 1)) (length (tabs st))); lia. }
  subst e.
  assert (Hgoal : forall z : Z,
            0 <= z ->
            (if z <? Z.of_nat (length (tabs st))
             then setActiveTabIndex z st else st)
            = (if (Z.to_nat (z + 1) <=? length (tabs st))%nat
               then setActiveTabIndex z st else st)).
  { intros z Hz. destruct (Hlt z) as [-> | ?]; [done|lia]. }
  repeat destruct Hcases as [-> | Hcases]; try subst d;
    destruct c, m, s; try discriminate Hcm;
    (split; [|reflexivity]);
    match goal with
    | |- context [ascii_of_nat ?x] =>
        let v := eval vm_compute in (ascii_of_nat x) in
        change (ascii_of_nat x) with v
    end;
    unfold handleKeyDown; cbn -[Z.ltb Nat.leb setActiveTabIndex Z.of_nat length];
    match goal with
    | |- context [isDigitKey ?k] =>
        let v := eval vm_compute in (isDigitKey k) in
        change (isDigitKey k) with v
    end;
    match goal with
    | |- context [parseInt ?k] =>
        let v := eval vm_compute in (parseInt k) in
        change (parseInt k) with v
    end;
    cbn -[Z.ltb Nat.leb setActiveTabIndex Z.of_nat length];
    match goal with
    | |- context [?z <? Z.of_nat (length (tabs st))] =>
        exact (Hgoal z ltac:(lia))
    end.
Qed.

(** X24 on Ctrl+1 with two tabs open and the second one active. *)
Lemma X24_ctrl_digit_selects_tab_witness :
  let st := Editor.run
              [FileClick (mkFileItem "a.txt" false) (Some (js "a"));
               FileClick (mkFileItem "b.txt" false) (Some (js "b"))] initial in
  activeTabIndex
    (state (handleKeyDown false
              (mkKey (String (ascii_of_nat (48 + 1)) "") true false false) st))
  = 0.
Proof.
  intros st.
  destruct (X24_ctrl_digit_selects_tab false true false false 1 st) as (H & _).
  - lia.
  - reflexivity.
  - rewrite H. vm_compute. reflexivity.
Defined.

(** X25: whether Escape closes the search panel depends on the value of
    [showSearch] in the render that installed the key listener, not on
    its present value.  A listener installed while the panel was hidden
    opens the panel on Ctrl+F and then ignores Escape: the panel stays
    open and the default action is not prevented. *)
Theorem X25_escape_uses_captured_showSearch
    (c m s c' m' s' : bool) (st : App) :
  c || m = true ->
  let opened := state (handleKeyDown false (mkKey "f" c m s) st) in
  showSearch opened = true
  /\ handleKeyDown false (mkKey "Escape" c' m' s') opened
     = mkOutcome opened false false
  /\ showSearch (state (handleKeyDown true (mkKey "Escape" c' m' s') opened))
     = false.
Proof.
  intros Hcm opened.
  assert (Ho : opened = setShowSearch true st).
  { subst opened. unfold handleKeyDown, ctrlOrMeta. cbn. by rewrite Hcm. }
  rewrite Ho. split; [done|]. unfold handleKeyDown, ctrlOrMeta.
  split; [|done]. cbn. by destruct c', m', s'.
Qed.

(** X25 on Ctrl+F followed by Escape. *)
Lemma X25_escape_uses_captured_showSearch_witness :
  let opened := state (handleKeyDown false (mkKey "f" true false false)
                                     initial) in
  showSearch (state (handleKeyDown false (mkKey "Escape" false false false)
                                   opened)) = true.
Proof.
  intros opened.
  destruct (X25_escape_uses_captured_showSearch
              true false false false false false initial eq_refl)
    as (Hs & He & _).
  subst opened. rewrite He. exact Hs.
Defined.

End KeyboardFacts.

(** * The file tree *)

Section FileTreeFacts.
Import FileTree.

(** Updating twice with the same children is updating once. *)
Lemma updateItem_idem p loaded :
  forall i, updateItem p loaded (updateItem p loaded i) = updateItem p loaded i.
Proof.
  fix IH 1. intros [p0 n d c]. simpl.
  destruct (String.eqb p0 p) eqn:He; simpl; rewrite ?He; [done|].
  destruct c as [l|]; simpl; rewrite ?He; [|done].
  f_equal. f_equal. rewrite map_map.
  induction l as [|a l IHl]; simpl; [done|]. by rewrite IH, IHl.
Qed.

(** An update that meets no item with the path changes nothing. *)
Lemma updateItem_unreached p loaded :
  forall i, reaches p i = false -> updateItem p loaded i = i.
Proof.
  fix IH 1. intros [p0 n d c]. simpl.
  intros [He Hc]%orb_false_iff. rewrite He.
  destruct c as [l|]; [|done]. f_equal. f_equal.
  induction l as [|a l IHl]; simpl in *; [done|].
  apply orb_false_iff in Hc as [Ha Hl]. by rewrite IH, IHl.
Qed.

Lemma updateItem_path p loaded i : path (updateItem p loaded i) = path i.
Proof.
  destruct i as [p0 n d c]. simpl. destruct (String.eqb p0 p); [done|].
  by destruct c.
Qed.

End FileTreeFacts.

(** X26: toggling a folder twice gives back the set of expanded folders,
    whether or not its contents had to be loaded in between; collapsing
    a folder never changes the file tree, and neither does expanding a
    folder whose children are loaded already or whose load fails. *)
Theorem X26_toggle_folder_twice
    (loaded loaded' : option (list FileTree.Item)) (folder : FileTree.Item)
    (t : FileTree.Tree) :
  FileTree.expandedFolders
    (FileTree.handleToggleFolder loaded' folder
       (FileTree.handleToggleFolder loaded folder t))
  = FileTree.expandedFolders t
  /\ (FileTree.path folder ∈ FileTree.expandedFolders t ->
      FileTree.fileTree (FileTree.handleToggleFolder loaded folder t)
      = FileTree.fileTree t)
  /\ (FileTree.children folder <> None \/ loaded = None ->
      FileTree.fileTree (FileTree.handleToggleFolder loaded folder t)
      = FileTree.fileTree t).
Proof.
  split; [|split].
  - unfold FileTree.handleToggleFolder at 2.
    destruct (decide (FileTree.path folder ∈ FileTree.expandedFolders t))
      as [Hin|Hout].
    + unfold FileTree.handleToggleFolder. simpl.
      rewrite decide_False
        by (rewrite elem_of_difference, elem_of_singleton; tauto).
      assert (Hset : FileTree.expandedFolders t ∖ {[FileTree.path folder]}
                     ∪ {[FileTree.path folder]}
                     = FileTree.expandedFolders t).
      { apply set_eq. intros x. rewrite elem_of_union, elem_of_difference,
          elem_of_singleton.
        destruct (decide (x = FileTree.path folder)) as [->|]; tauto. }
      destruct (FileTree.children folder); [done|]. by destruct loaded'.
    + assert (Hset : (FileTree.expandedFolders t ∪ {[FileTree.path folder]})
                     ∖ {[FileTree.path folder]}
                     = FileTree.expandedFolders t).
      { apply set_eq. intros x. rewrite elem_of_difference, elem_of_union,
          elem_of_singleton.
        destruct (decide (x = FileTree.path folder)) as [->|]; tauto. }
      unfold FileTree.handleToggleFolder.
      destruct (FileTree.children folder); [|destruct loaded]; simpl;
        rewrite decide_True
          by (rewrite elem_of_union, elem_of_singleton; tauto);
        simpl; by rewrite Hset.
  - intros Hin. unfold FileTree.handleToggleFolder. by rewrite decide_True.
  - intros H. unfold FileTree.handleToggleFolder.
    destruct (decide _); [done|].
    destruct (FileTree.children folder); [done|].
    destruct H as [H | ->]; done.
Qed.

(** X26 on a collapsed folder that is expanded and collapsed again. *)
Lemma X26_toggle_folder_twice_witness :
  let folder := FileTree.mkItem "src" "src" true None in
  let t := FileTree.mkTree [folder] ∅ in
  FileTree.fileTree (FileTree.handleToggleFolder None folder t) = [folder].
Proof.
  intros folder t.
  destruct (X26_toggle_folder_twice None None folder t) as (_ & _ & H).
  apply H. by right.
Defined.

(** X27: [updateTreeWithChildren] keeps the number, the order and the
    paths of the items of the list; it changes nothing when no item with
    the path of the folder is met, and applying it twice with the same
    children is the same as applying it once.  A folder at the top of
    the tree gets exactly the loaded children. *)
Theorem X27_update_tree_with_children
    (p : string) (loaded items : list FileTree.Item) :
  let updated := FileTree.updateTreeWithChildren p loaded items in
  length updated = length items
  /\ map FileTree.path updated = map FileTree.path items
  /\ FileTree.updateTreeWithChildren p loaded updated = updated
  /\ (existsb (FileTree.reaches p) items = false -> updated = items)
  /\ (forall k i, items !! k = Some i -> FileTree.path i = p ->
        FileTree.children <$> updated !! k = Some (Some loaded)).
Proof.
  intros updated. subst updated. unfold FileTree.updateTreeWithChildren.
  split; [apply length_map|]. split; [|split; [|split]].
  - rewrite map_map. apply map_ext. intros i. apply updateItem_path.
  - rewrite map_map. apply map_ext. intros i. apply updateItem_idem.
  - induction items as [|a l IH]; simpl; [done|].
    intros [Ha Hl]%orb_false_iff.
    by rewrite updateItem_unreached, IH.
  - intros k i Hk Hp.
    change (map (FileTree.updateItem p loaded) items)
      with (FileTree.updateItem p loaded <$> items).
    rewrite list_lookup_fmap, Hk. simpl.
    destruct i as [p0 n d c]. simpl in *. subst p0.
    by rewrite String.eqb_refl.
Qed.

(** X27 on a tree with one folder whose contents arrive. *)
Lemma X27_update_tree_with_children_witness :
  let file := FileTree.mkItem "src/a.js" "a.js" false None in
  let items := [FileTree.mkItem "src" "src" true None;
                FileTree.mkItem "README.md" "README.md" false None] in
  FileTree.children
    <$> FileTree.updateTreeWithChildren "src" [file] items !! 0%nat
  = Some (Some [file]).
Proof.
  intros file items.
  destruct (X27_update_tree_with_children "src" [file] items)
    as (_ & _ & _ & _ & H).
  apply (H 0%nat (FileTree.mkItem "src" "src" true None)); reflexivity.
Defined.
